(** * find_best_daubechies_interpolator: a shallow embedding

    The program [example/daubechies_wavelets/find_best_daubechies_interpolator.cpp]
    sweeps the Daubechies scaling functions with [p = 2 .. 15] vanishing
    moments.  For each [p] it tabulates the function on a fine dyadic grid
    (level [rmax = 17]) and, for each coarser level [r], measures the sup-norm
    distance between that table and a series of interpolants built from the
    level-[r] grid.  The errors go to a CSV file and to a [std::map] keyed by
    error, from which the smallest is reported on the console.

    Modelling choices.
    - [Real] ([float128] in [main]) is modelled by the exact rationals [Q]:
      rounding is not modelled, comparisons and [floor] are exact.
    - The special-function and interpolation routines the program calls are
      not part of the file; they are the fields of a [Library] record.
    - Effects are a log of [event]s (file and console output, library grid
      constructions, interpolant evaluations, map insertions) carried by a
      small writer monad with failure; an out-of-bounds vector access is a
      failure.
    - [choose_refinement] is never called ([main] has its calls commented
      out) and is left out. *)

From Stdlib Require Import String Ascii DecimalString DecimalZ DecimalPos FinFun.
From Stdlib Require Import List Sorted ZArith QArith Qround Qabs Qpower Bool Lia Lqa.
Import ListNotations.

Open Scope string_scope.
Open Scope list_scope.
Open Scope Q_scope.

(* ================================================================== *)
(** * Part I: the program *)

(* ------------------------------------------------------------------ *)
(** ** Numbers *)

Definition Real : Type := Q.

(** [a < b] on [Real], as a boolean. *)
Definition Qlt_bool (a b : Real) : bool := negb (Qle_bool b a).

(** Conversion of an [int] or a [size_t] to [Real]. *)
Definition of_int (z : Z) : Real := inject_Z z.

Definition of_size_t (n : nat) : Real := inject_Z (Z.of_nat n).

(** [n - 1] on [size_t]: unsigned, 64 bits, wraps at zero. *)
Definition size_t_pred (n : nat) : nat :=
  Z.to_nat ((Z.of_nat n - 1) mod 2 ^ 64).

(** [1 << r] on [int]. *)
Definition shl1 (r : Z) : Z := Z.shiftl 1 r.

(** [v[k]] for an index obtained from a [Real] by [static_cast<size_t>]:
    the access is unchecked in the source, so anything outside the vector
    is a failure.  (A vector has fewer than [2^64] elements, hence an index
    that the cast or [kk+1] would wrap is outside it as well.) *)
Definition at_index (v : list Real) (k : Z) : option Real :=
  if (k <? 0)%Z then None else nth_error v (Z.to_nat k).

(** [std::to_string] and [operator<<] on an [int]. *)
Definition to_string (z : Z) : string := NilZero.string_of_int (Z.to_int z).

Definition nl : string := String (ascii_of_nat 10) EmptyString.

Definition tab : string := String (ascii_of_nat 9) EmptyString.

(* ------------------------------------------------------------------ *)
(** ** Events and the monad *)

(** What is sent to a stream with [<<]. *)
Inductive tok : Type :=
| TStr (s : string)
| TInt (z : Z)
| TReal (x : Real).

Inductive event : Type :=
| Open (filename : string)               (* std::ofstream fs{filename} *)
| Fs (t : tok)                           (* fs << t *)
| Cout (t : tok)                         (* std::cout << t *)
| Grid (p : Z) (order : nat) (r : Z)     (* dyadic_grid<Real, p, order>(r) *)
| Eval (scheme : string) (x : Real)      (* an interpolant called at x *)
| Insert (sup : Real) (name : string).   (* m.insert({sup, name}) *)

(** A computation: the events it produced, and its value unless it ran
    into an unchecked access outside a vector. *)
Definition M (A : Type) : Type := (list event * option A)%type.

Definition ret {A} (a : A) : M A := ([], Some a).

Definition bind {A B} (c : M A) (f : A -> M B) : M B :=
  match c with
  | (l, Some a) => let '(l', b) := f a in (l ++ l', b)
  | (l, None) => (l, None)
  end.

Definition emit (e : event) : M unit := ([e], Some tt).

Definition lift {A} (o : option A) : M A := ([], o).

Notation "x <- c ;; k" := (bind c (fun x => k))
  (at level 61, c at next level, right associativity).
Notation "c ;;; k" := (bind c (fun _ => k))
  (at level 61, right associativity).

Definition fs (t : tok) : M unit := emit (Fs t).

Definition cout (t : tok) : M unit := emit (Cout t).

Fixpoint for_each {A} (xs : list A) (body : A -> M unit) : M unit :=
  match xs with
  | [] => ret tt
  | x :: xs' => body x ;;; for_each xs' body
  end.

(** The values of [for (int r = lo; r < hi; ++r)]. *)
Definition int_range (lo hi : Z) : list Z :=
  map (fun i => (lo + Z.of_nat i)%Z) (seq 0 (Z.to_nat (hi - lo))).

(* ------------------------------------------------------------------ *)
(** ** std::map<Real, std::string> *)

(** Kept sorted by key; [insert] leaves the map alone when the key is
    already there. *)
Definition map_t : Type := list (Real * string).

Fixpoint map_insert (k : Real) (v : string) (m : map_t) : map_t :=
  match m with
  | [] => [(k, v)]
  | (k', v') :: rest =>
      match k ?= k' with
      | Lt => (k, v) :: m
      | Eq => m
      | Gt => (k', v') :: map_insert k v rest
      end
  end.

(* ------------------------------------------------------------------ *)
(** ** The external library *)

Record Library : Type := {
  (* boost::math::detail::dyadic_grid<Real, p, order>(r) *)
  dyadic_grid : Z -> nat -> Z -> list Real;
  (* boost::math::detail::matched_holder(y, dydx, r) *)
  matched_holder : list Real -> list Real -> Z -> Real -> Real;
  (* cardinal_quadratic_b_spline(y, n, t0, h, left derivative, right derivative) *)
  cardinal_quadratic_b_spline :
    list Real -> Real -> Real -> Real -> Real -> Real -> Real;
  cardinal_cubic_b_spline :
    list Real -> Real -> Real -> Real -> Real -> Real -> Real;
  (* cardinal_quintic_b_spline(y, n, t0, h, left derivatives, right derivatives) *)
  cardinal_quintic_b_spline :
    list Real -> Real -> Real -> Real * Real -> Real * Real -> Real -> Real;
  (* cardinal_cubic_hermite(y, dydx, x0, dx) *)
  cardinal_cubic_hermite : list Real -> list Real -> Real -> Real -> Real -> Real;
  (* pchip(x, y) and makima(x, y) *)
  pchip : list Real -> list Real -> Real -> Real;
  makima : list Real -> list Real -> Real -> Real;
  (* cardinal_quintic_hermite(y, dydx, d2ydx2, x0, dx) *)
  cardinal_quintic_hermite :
    list Real -> list Real -> list Real -> Real -> Real -> Real -> Real;
  (* cardinal_septic_hermite(y, dydx, d2ydx2, d3ydx3, x0, dx) *)
  cardinal_septic_hermite :
    list Real -> list Real -> list Real -> list Real -> Real -> Real -> Real -> Real
}.

(* ------------------------------------------------------------------ *)
(** ** The interpolants written in the program itself *)

Section Lambdas.

Variables (p r : Z).
Variables (phi phi_prime phi_dbl_prime phi_triple_prime : list Real).

Definition linear (x : Real) : option Real :=
  if Qle_bool x 0 || Qle_bool (of_int (2 * p - 1)) x then Some 0
  else
    let y := of_int (shl1 r) * x in
    let k := Qfloor y in
    let kk := k in
    let t := y - inject_Z k in
    match at_index phi kk, at_index phi (kk + 1) with
    | Some a, Some b => Some ((1 - t) * a + t * b)
    | _, _ => None
    end.

Definition fotaylor (x : Real) : option Real :=
  if Qle_bool x 0 || Qle_bool (of_int (2 * p - 1)) x then Some 0
  else
    let y := of_int (shl1 r) * x in
    let k := Qfloor y in
    let kk := k in
    if Qlt_bool (y - inject_Z k) (inject_Z k + 1 - y) then
      let eps := (y - inject_Z k) / of_int (shl1 r) in
      match at_index phi kk, at_index phi_prime kk with
      | Some a, Some b => Some (a + eps * b)
      | _, _ => None
      end
    else
      let eps := (y - inject_Z k - 1) / of_int (shl1 r) in
      match at_index phi (kk + 1), at_index phi_prime (kk + 1) with
      | Some a, Some b => Some (a + eps * b)
      | _, _ => None
      end.

Definition sotaylor (x : Real) : option Real :=
  if Qle_bool x 0 || Qle_bool (of_int (2 * p - 1)) x then Some 0
  else
    let y := of_int (shl1 r) * x in
    let k := Qfloor y in
    let kk := k in
    if Qlt_bool (y - inject_Z k) (inject_Z k + 1 - y) then
      let eps := (y - inject_Z k) / of_int (shl1 r) in
      match at_index phi kk, at_index phi_prime kk,
            at_index phi_dbl_prime kk with
      | Some a, Some b, Some c => Some (a + eps * b + eps * eps * c / 2)
      | _, _, _ => None
      end
    else
      let eps := (y - inject_Z k - 1) / of_int (shl1 r) in
      match at_index phi (kk + 1), at_index phi_prime (kk + 1),
            at_index phi_dbl_prime (kk + 1) with
      | Some a, Some b, Some c => Some (a + eps * b + eps * eps * c / 2)
      | _, _, _ => None
      end.

(** The second branch reads [phi_triple_prime[kk]], as the source does. *)
Definition totaylor (x : Real) : option Real :=
  if Qle_bool x 0 || Qle_bool (of_int (2 * p - 1)) x then Some 0
  else
    let y := of_int (shl1 r) * x in
    let k := Qfloor y in
    let kk := k in
    if Qlt_bool (y - inject_Z k) (inject_Z k + 1 - y) then
      let eps := (y - inject_Z k) / of_int (shl1 r) in
      match at_index phi kk, at_index phi_prime kk,
            at_index phi_dbl_prime kk, at_index phi_triple_prime kk with
      | Some a, Some b, Some c, Some d =>
          Some (a + eps * b + eps * eps * c / 2 + eps * eps * eps * d / 6)
      | _, _, _, _ => None
      end
    else
      let eps := (y - inject_Z k - 1) / of_int (shl1 r) in
      match at_index phi (kk + 1), at_index phi_prime (kk + 1),
            at_index phi_dbl_prime (kk + 1), at_index phi_triple_prime kk with
      | Some a, Some b, Some c, Some d =>
          Some (a + eps * b + eps * eps * c / 2 + eps * eps * eps * d / 6)
      | _, _, _, _ => None
      end.

End Lambdas.

(* ------------------------------------------------------------------ *)
(** ** find_best_interpolator *)

Definition rmax : Z := 17.

(** A library interpolant never fails in the model. *)
Definition total (f : Real -> Real) (x : Real) : option Real := Some (f x).

(** [(2*p-1)/static_cast<Real>(n-1)], the spacing of a grid of [n] points. *)
Definition spacing (p : Z) (n : nat) : Real :=
  of_int (2 * p - 1) / of_size_t (size_t_pred n).

(** [x[i] = i*dx] for [i < n]. *)
Definition abscissas (n : nat) (dx : Real) : list Real :=
  map (fun i => of_size_t i * dx) (seq 0 n).

Definition front (v : list Real) : M Real := lift (hd_error v).

Definition back (v : list Real) : M Real := lift (nth_error v (length v - 1)).

Section Program.

Variable L : Library.
Variable p : Z.

Definition grid (order : nat) (r : Z) : M (list Real) :=
  emit (Grid p order r) ;;; ret (dyadic_grid L p order r).

Section Resolution.

Variable phi_dense : list Real.
Variable dx_dense : Real.

(** The loop
    [for (i ...) { x = i*dx_dense; diff = abs(phi_dense[i] - f(x));
                   if (diff > sup) sup = diff; }]
    over the indices [idx], entered with the current value of [sup]. *)
Fixpoint sup_loop (name : string) (f : Real -> option Real)
         (idx : list nat) (sup : Real) : M Real :=
  match idx with
  | [] => ret sup
  | i :: rest =>
      let x := of_size_t i * dx_dense in
      ref <- lift (nth_error phi_dense i) ;;
      emit (Eval name x) ;;;
      v <- lift (f x) ;;
      let diff := Qabs (ref - v) in
      sup_loop name f rest (if Qlt_bool sup diff then diff else sup)
  end.

(** One block of the loop body: the sup-norm loop over the first [n]
    reference points, [m.insert({sup, name})], [fs << sup << sep]. *)
Definition compare (name : string) (f : Real -> option Real) (n : nat)
           (sep : string) (m : map_t) : M map_t :=
  sup <- sup_loop name f (seq 0 n) 0 ;;
  emit (Insert sup name) ;;;
  fs (TReal sup) ;;;
  fs (TStr sep) ;;;
  ret (map_insert sup name m).

(** Lines 173-545: the body of the loop over [r] up to the last scheme. *)
Definition compare_schemes (r : Z) : M map_t :=
  fs (TInt r) ;;; fs (TStr ", ") ;;;
  let m : map_t := [] in
  phi <- grid 0 r ;;
  phi_prime <- grid 1 r ;;
  let dx := spacing p (length phi) in
  let x := abscissas (length phi) dx in
  cout (TStr "dx = 1/") ;;; cout (TInt (shl1 r)) ;;; cout (TStr " = ") ;;;
  cout (TReal dx) ;;; cout (TStr nl) ;;;
  let n := length phi_dense in
  (* the call to matched_holder is unchecked: stop at size() - 1 *)
  m <- compare "matched_holder" (total (matched_holder L phi phi_prime r))
               (size_t_pred n) ", " m ;;
  m <- compare "linear interpolation" (linear p r phi) n ", " m ;;
  d0 <- front phi_prime ;;
  d1 <- back phi_prime ;;
  m <- compare "quadratic_b_spline"
               (total (cardinal_quadratic_b_spline L phi 0 dx d0 d1)) n ", " m ;;
  d0 <- front phi_prime ;;
  d1 <- back phi_prime ;;
  m <- compare "cubic_b_spline"
               (total (cardinal_cubic_b_spline L phi 0 dx d0 d1)) n ", " m ;;
  m <- compare "quintic_b_spline"
               (total (cardinal_quintic_b_spline L phi 0 dx (0, 0) (0, 0)))
               n ", " m ;;
  m <- compare "cubic_hermite_spline"
               (total (cardinal_cubic_hermite L phi phi_prime 0 dx)) n ", " m ;;
  m <- compare "pchip" (total (pchip L x phi)) n ", " m ;;
  m <- compare "makima" (total (makima L x phi)) n ", " m ;;
  m <- compare "First-order Taylor" (fotaylor p r phi phi_prime) n
               (if (p =? 2)%Z then nl else ", ") m ;;
  m <- (if (2 <? p)%Z then
          phi_dbl_prime <- grid 2 r ;;
          m <- compare "quintic_hermite_spline"
                       (total (cardinal_quintic_hermite L phi phi_prime
                                                        phi_dbl_prime 0 dx))
                       n ", " m ;;
          compare "Second-order Taylor"
                  (sotaylor p r phi phi_prime phi_dbl_prime) n
                  (if (3 <? p)%Z then ", " else nl) m
        else ret m) ;;
  if (3 <? p)%Z then
    phi_dbl_prime <- grid 2 r ;;
    phi_triple_prime <- grid 3 r ;;
    m <- compare "Third-order Taylor"
                 (totaylor p r phi phi_prime phi_dbl_prime phi_triple_prime)
                 n ", " m ;;
    compare "septic_hermite_spline"
            (total (cardinal_septic_hermite L phi phi_prime phi_dbl_prime
                                            phi_triple_prime 0 dx))
            n nl m
  else ret m.

(** Lines 549-557: the scan of [m] in increasing order of key. *)
Fixpoint best_loop (m : map_t) (best : string) (best_sup : Real)
  : M (string * Real) :=
  match m with
  | [] => ret (best, best_sup)
  | (e1, e2) :: rest =>
      cout (TStr tab) ;;; cout (TReal e1) ;;; cout (TStr " is error of ") ;;;
      cout (TStr e2) ;;; cout (TStr nl) ;;;
      if Qlt_bool e1 best_sup then best_loop rest e2 e1
      else best_loop rest best best_sup
  end.

(** Lines 546-558. *)
Definition report_best (m : map_t) : M unit :=
  b <- best_loop m "none" (of_int 1000000000) ;;
  cout (TStr (tab ++ "The best method for p = ")) ;;; cout (TInt p) ;;;
  cout (TStr " is the ") ;;; cout (TStr (fst b)) ;;; cout (TStr nl).

End Resolution.

Definition filename : string :=
  "daubechies_" ++ to_string p ++ "_scaling_convergence.csv".

Definition find_best_interpolator : M unit :=
  emit (Open filename) ;;;
  cout (TStr ("Computing phi_dense_precise" ++ nl)) ;;;
  phi_dense_precise <- grid 0 rmax ;;
  (* phi_dense[i] = static_cast<Real>(phi_dense_precise[i]); both types
     are float128 in main *)
  let phi_dense := phi_dense_precise in
  cout (TStr ("Done" ++ nl)) ;;;
  let dx_dense := spacing p (length phi_dense) in
  fs (TStr "r, matched_holder, linear, quadratic_b_spline, cubic_b_spline, quintic_b_spline, cubic_hermite, pchip, makima, fo_taylor") ;;;
  (if (p =? 2)%Z then fs (TStr nl)
   else
     fs (TStr ", quintic_hermite, second_order_taylor") ;;;
     if (3 <? p)%Z then fs (TStr (", third_order_taylor, septic_hermite" ++ nl))
     else fs (TStr nl)) ;;;
  for_each (int_range 2 (rmax - 1))
    (fun r =>
       m <- compare_schemes phi_dense dx_dense r ;;
       report_best m).

End Program.

Definition main (L : Library) : M unit :=
  find_best_interpolator L 2 ;;;
  find_best_interpolator L 3 ;;;
  find_best_interpolator L 4 ;;;
  find_best_interpolator L 5 ;;;
  find_best_interpolator L 6 ;;;
  find_best_interpolator L 7 ;;;
  find_best_interpolator L 8 ;;;
  find_best_interpolator L 9 ;;;
  find_best_interpolator L 10 ;;;
  find_best_interpolator L 11 ;;;
  find_best_interpolator L 12 ;;;
  find_best_interpolator L 13 ;;;
  find_best_interpolator L 14 ;;;
  find_best_interpolator L 15.

(* ================================================================== *)
(** * Part II: vocabulary of the properties *)

(* ------------------------------------------------------------------ *)
(** ** Grids and supports *)

(** Number of points of the dyadic grid of level [r]: [(2p-1)*2^r + 1]. *)
Definition grid_points (p r : Z) : nat := Z.to_nat ((2 * p - 1) * 2 ^ r + 1).

(** The library is expected to return dyadic grids of [(2p-1)*2^r + 1]
    points, for the function and for its derivatives. *)
Definition well_sized (L : Library) (p r : Z) : Prop :=
  forall order, length (dyadic_grid L p order r) = grid_points p r.

(** The guard [x <= 0 || x >= 2*p-1] of the four lambdas. *)
Definition outside (p : Z) (x : Real) : bool :=
  Qle_bool x 0 || Qle_bool (of_int (2 * p - 1)) x.

(* ------------------------------------------------------------------ *)
(** ** Reading a log *)

Definition fs_of (tr : list event) : list tok :=
  flat_map (fun e => match e with Fs t => [t] | _ => [] end) tr.

Definition cout_of (tr : list event) : list tok :=
  flat_map (fun e => match e with Cout t => [t] | _ => [] end) tr.

Definition opens_of (tr : list event) : list string :=
  flat_map (fun e => match e with Open f => [f] | _ => [] end) tr.

Definition inserts_of (tr : list event) : list (Real * string) :=
  flat_map (fun e => match e with Insert s n => [(s, n)] | _ => [] end) tr.

(** The abscissas at which the interpolant labelled [name] was called. *)
Definition evals_of (name : string) (tr : list event) : list Real :=
  flat_map (fun e => match e with
                     | Eval s x => if String.eqb s name then [x] else []
                     | _ => []
                     end) tr.


(* ------------------------------------------------------------------ *)
(** ** Sup norms *)

Definition defined (f : Real -> option Real) : Prop :=
  forall x, exists v, f x = Some v.

Section SupNorm.

Variable phi_dense : list Real.
Variable dx_dense : Real.

(** The sup norm the loop is meant to compute, stated without the loop:
    [d] is the error at the reference point [i], and [e] is the largest
    error over the first [n] reference points. *)
Definition error_at (f : Real -> option Real) (i : nat) (d : Real) : Prop :=
  exists ref v,
    nth_error phi_dense i = Some ref /\
    f (of_size_t i * dx_dense) = Some v /\
    d = Qabs (ref - v).

Definition max_error (f : Real -> option Real) (n : nat) (e : Real) : Prop :=
  (forall i, (i < n)%nat -> exists d, error_at f i d /\ d <= e) /\
  (exists i d, (i < n)%nat /\ error_at f i d /\ e == d).

(** The value the loop leaves in [sup], as a fold. *)
Definition diff_at (f : Real -> option Real) (i : nat) : Real :=
  Qabs (nth i phi_dense 0 -
        match f (of_size_t i * dx_dense) with Some v => v | None => 0 end).

Definition sup_step (f : Real -> option Real) (sup : Real) (i : nat) : Real :=
  if Qlt_bool sup (diff_at f i) then diff_at f i else sup.

Definition sup_over (f : Real -> option Real) (idx : list nat) (sup : Real)
  : Real :=
  fold_left (sup_step f) idx sup.

(** What one block of the loop body writes to the log. *)
Definition block_events (name : string) (f : Real -> option Real) (n : nat)
           (sep : string) : list event :=
  map (fun i => Eval name (of_size_t i * dx_dense)) (seq 0 n) ++
  [Insert (sup_over f (seq 0 n) 0) name;
   Fs (TReal (sup_over f (seq 0 n) 0));
   Fs (TStr sep)].

End SupNorm.

(* ------------------------------------------------------------------ *)
(** ** The interpolants compared at one resolution *)

Section Table.

Variables (L : Library) (p r : Z).

(** The interpolants built at resolution [r], each with the label under
    which its error is inserted in [m], in the order of the source. *)
Definition interpolants : list (string * (Real -> option Real)) :=
  let phi := dyadic_grid L p 0 r in
  let phi_prime := dyadic_grid L p 1 r in
  let phi_dbl_prime := dyadic_grid L p 2 r in
  let phi_triple_prime := dyadic_grid L p 3 r in
  let dx := spacing p (length phi) in
  let x := abscissas (length phi) dx in
  let d0 := hd 0 phi_prime in
  let d1 := nth (length phi_prime - 1) phi_prime 0 in
  [ ("matched_holder", total (matched_holder L phi phi_prime r));
    ("linear interpolation", linear p r phi);
    ("quadratic_b_spline", total (cardinal_quadratic_b_spline L phi 0 dx d0 d1));
    ("cubic_b_spline", total (cardinal_cubic_b_spline L phi 0 dx d0 d1));
    ("quintic_b_spline",
     total (cardinal_quintic_b_spline L phi 0 dx (0, 0) (0, 0)));
    ("cubic_hermite_spline", total (cardinal_cubic_hermite L phi phi_prime 0 dx));
    ("pchip", total (pchip L x phi));
    ("makima", total (makima L x phi));
    ("First-order Taylor", fotaylor p r phi phi_prime) ]
  ++ (if (2 <? p)%Z then
        [ ("quintic_hermite_spline",
           total (cardinal_quintic_hermite L phi phi_prime phi_dbl_prime 0 dx));
          ("Second-order Taylor", sotaylor p r phi phi_prime phi_dbl_prime) ]
      else [])
  ++ (if (3 <? p)%Z then
        [ ("Third-order Taylor",
           totaylor p r phi phi_prime phi_dbl_prime phi_triple_prime);
          ("septic_hermite_spline",
           total (cardinal_septic_hermite L phi phi_prime phi_dbl_prime
                                          phi_triple_prime 0 dx)) ]
      else []).

(** The number of reference points an interpolant is compared at: the
    matched-Holder loop stops one short. *)
Definition points_visited (n : nat) (name : string) : nat :=
  if String.eqb name "matched_holder" then size_t_pred n else n.

End Table.

Section Recorded.

Variables (L : Library) (p r : Z) (phi_dense : list Real) (dx_dense : Real).

(** The errors recorded at resolution [r], one per interpolant. *)
Definition recorded : list (Real * string) :=
  map (fun nf =>
         (sup_over phi_dense dx_dense (snd nf)
                   (seq 0 (points_visited (length phi_dense) (fst nf))) 0,
          fst nf))
      (interpolants L p r).

End Recorded.

Definition map_of (ins : list (Real * string)) : map_t :=
  fold_left (fun m en => map_insert (fst en) (snd en) m) ins [].

(** The invariant of [std::map]: keys strictly increasing. *)
Definition ordered (m : map_t) : Prop :=
  StronglySorted (fun a b : Real * string => fst a < fst b) m.

(* ------------------------------------------------------------------ *)
(** ** The CSV file *)

(** The cells of a CSV data row after the leading [r, ]. *)
Fixpoint cells (es : list Real) : list tok :=
  match es with
  | [] => []
  | [e] => [TReal e; TStr nl]
  | e :: es' => TReal e :: TStr ", " :: cells es'
  end.

(** The header line, as the tokens sent to the file. *)
Definition header_tokens (p : Z) : list tok :=
  TStr "r, matched_holder, linear, quadratic_b_spline, cubic_b_spline, quintic_b_spline, cubic_hermite, pchip, makima, fo_taylor"
  :: (if (p =? 2)%Z then [TStr nl]
      else TStr ", quintic_hermite, second_order_taylor"
           :: (if (3 <? p)%Z
               then [TStr (", third_order_taylor, septic_hermite" ++ nl)]
               else [TStr nl])).

(** The characters of the file; a [Real] is left as an atom, its decimal
    expansion (fixed notation, [digits10 + 3] digits) is not modelled. *)
Inductive atom : Type :=
| Ch (c : ascii)
| Num (x : Real).

Definition text (s : string) : list atom := map Ch (list_ascii_of_string s).

Definition render_tok (t : tok) : list atom :=
  match t with
  | TStr s => text s
  | TInt z => text (to_string z)
  | TReal x => [Num x]
  end.

Definition render (ts : list tok) : list atom := flat_map render_tok ts.

(** A CSV table as the specification describes it: one header line naming
    the columns, then one line per row holding [r] and the row's errors;
    fields are separated by [", "] and each line ends with a newline. *)
Fixpoint join (sep : list atom) (fields : list (list atom)) : list atom :=
  match fields with
  | [] => []
  | [f] => f
  | f :: fields' => f ++ sep ++ join sep fields'
  end.

Definition csv_line (fields : list (list atom)) : list atom :=
  join (text ", ") fields ++ text nl.

Definition csv_table (columns : list string) (rows : list (Z * list Real))
  : list atom :=
  csv_line (map text columns) ++
  flat_map (fun row => csv_line (text (to_string (fst row))
                                 :: map (fun e => [Num e]) (snd row)))
           rows.

(** The columns appropriate to [p]. *)
Definition columns (p : Z) : list string :=
  ["r"; "matched_holder"; "linear"; "quadratic_b_spline"; "cubic_b_spline";
   "quintic_b_spline"; "cubic_hermite"; "pchip"; "makima"; "fo_taylor"]
  ++ (if (2 <? p)%Z then ["quintic_hermite"; "second_order_taylor"] else [])
  ++ (if (3 <? p)%Z then ["third_order_taylor"; "septic_hermite"] else []).

(** The label under which the error written in column [c] is inserted in
    [m]: the header abbreviates some of the labels. *)
Definition scheme_of_column (c : string) : string :=
  if String.eqb c "linear" then "linear interpolation"
  else if String.eqb c "cubic_hermite" then "cubic_hermite_spline"
  else if String.eqb c "fo_taylor" then "First-order Taylor"
  else if String.eqb c "quintic_hermite" then "quintic_hermite_spline"
  else if String.eqb c "second_order_taylor" then "Second-order Taylor"
  else if String.eqb c "third_order_taylor" then "Third-order Taylor"
  else if String.eqb c "septic_hermite" then "septic_hermite_spline"
  else c.

(* ------------------------------------------------------------------ *)
(** ** Sample data *)

(** A tent over the dyadic grid, vanishing at both ends of the support,
    scaled down with the order of the derivative. *)
Definition sample_grid (p : Z) (order : nat) (r : Z) : list Real :=
  map (fun i => of_size_t (Nat.min i (grid_points p r - 1 - i))
                / of_size_t (S order))
      (seq 0 (grid_points p r)).

(** Grids of the expected size; external interpolants that ignore the data. *)
Definition sample_library : Library := {|
  dyadic_grid := sample_grid;
  matched_holder := fun _ _ _ _ => 0;
  cardinal_quadratic_b_spline := fun _ _ _ _ _ _ => 1 # 2;
  cardinal_cubic_b_spline := fun _ _ _ _ _ _ => 1 # 3;
  cardinal_quintic_b_spline := fun _ _ _ _ _ _ => 1 # 5;
  cardinal_cubic_hermite := fun _ _ _ _ x => x;
  pchip := fun _ _ x => x / 2;
  makima := fun _ _ x => x / 3;
  cardinal_quintic_hermite := fun _ _ _ _ _ x => x / 5;
  cardinal_septic_hermite := fun _ _ _ _ _ _ x => x / 7
|}.

(** The same, except that the matched-Holder interpolant returns a stray
    value at the right end of the support [2p-1 = 3], where the program
    does not call it. *)
Definition endpoint_library : Library := {|
  dyadic_grid := sample_grid;
  matched_holder := fun _ _ _ x => if Qle_bool 3 x then 7 else 0;
  cardinal_quadratic_b_spline := fun _ _ _ _ _ _ => 1 # 2;
  cardinal_cubic_b_spline := fun _ _ _ _ _ _ => 1 # 3;
  cardinal_quintic_b_spline := fun _ _ _ _ _ _ => 1 # 5;
  cardinal_cubic_hermite := fun _ _ _ _ x => x;
  pchip := fun _ _ x => x / 2;
  makima := fun _ _ x => x / 3;
  cardinal_quintic_hermite := fun _ _ _ _ _ x => x / 5;
  cardinal_septic_hermite := fun _ _ _ _ _ _ x => x / 7
|}.

(** A reference grid of three points and its spacing for [p = 2]. *)
Definition three_points : list Real := [0; 1; 0].

Definition three_points_dx : Real := spacing 2 3.

(** A reference grid of 25 points for [p = 2], and its spacing. *)
Definition sample_dense : list Real := sample_grid 2 0 3.

Definition sample_dx : Real := spacing 2 (length sample_dense).

(** The map left by the comparison for [p = 2], [r = 2] on the sample data. *)
Definition sample_map : map_t :=
  match snd (compare_schemes sample_library 2 sample_dense sample_dx 2) with
  | Some m => m
  | None => []
  end.

(* ------------------------------------------------------------------ *)
(** ** Grids sampled from a function *)


(** The level-[r] grid of [f] over the support [[0, 2p-1]]. *)
Definition tabulate (p r : Z) (f : Real -> Real) : list Real :=
  map (fun i => f (of_size_t i / of_int (shl1 r))) (seq 0 (grid_points p r)).

(* ------------------------------------------------------------------ *)
(** ** Keys of the map *)

(** [m] has an entry whose key compares equal to [k]. *)
Definition has_key (m : map_t) (k : Real) : Prop :=
  exists en, In en m /\ fst en == k.

(** [en] is the first pair of [ins] with its key. *)
Definition first_with_key (ins : list (Real * string)) (en : Real * string)
  : Prop :=
  exists l1 l2, ins = l1 ++ en :: l2 /\ forall e', In e' l1 -> ~ fst e' == fst en.

(** The console line written for one entry of [m]. *)
Definition console_line (en : Real * string) : list tok :=
  [TStr tab; TReal (fst en); TStr " is error of "; TStr (snd en); TStr nl].

(* ------------------------------------------------------------------ *)
(** ** Requests to dyadic_grid *)

(** The calls [dyadic_grid<_, p, order>(r)] of a log, as triples
    [(p, order, r)]. *)
Definition grids_of (tr : list event) : list (Z * nat * Z) :=
  flat_map (fun e => match e with Grid p o r => [(p, o, r)] | _ => [] end) tr.

(** The grids requested by the loop body at resolution [r]. *)
Definition grids_at (p r : Z) : list (Z * nat * Z) :=
  [(p, 0%nat, r); (p, 1%nat, r)]
  ++ (if (2 <? p)%Z then [(p, 2%nat, r)] else [])
  ++ (if (3 <? p)%Z then [(p, 2%nat, r); (p, 3%nat, r)] else []).

(* ================================================================== *)
(** * Part III: properties *)

(* ------------------------------------------------------------------ *)
(** ** The model at work *)

Example filename_12 : filename 12 = "daubechies_12_scaling_convergence.csv".
Proof. reflexivity. Qed.

Example r_values : int_range 2 (rmax - 1) =
                   [2; 3; 4; 5; 6; 7; 8; 9; 10; 11; 12; 13; 14; 15]%Z.
Proof. reflexivity. Qed.

Example linear_midpoint :
  exists v,
    linear 2 2 [0; 1; 4; 9; 16; 9; 4; 1; 0; 0; 0; 0; 0] (5 # 8) = Some v /\
    v == 13 # 2.
Proof. eexists. split; [vm_compute; reflexivity | reflexivity]. Qed.

Example linear_past_the_grid : linear 2 2 [0; 1; 4] (5 # 8) = None.
Proof. reflexivity. Qed.

Example insert_keeps_first :
  map_insert 3 "b" (map_insert 1 "c" (map_insert 3 "a" [])) = [(1, "c"); (3, "a")].
Proof. reflexivity. Qed.

Example best_of_three :
  cout_of (fst (report_best 5 [(1 # 2, "pchip"); (2, "makima"); (3, "linear interpolation")]))
  = [TStr tab; TReal (1 # 2); TStr " is error of "; TStr "pchip"; TStr nl;
     TStr tab; TReal 2; TStr " is error of "; TStr "makima"; TStr nl;
     TStr tab; TReal 3; TStr " is error of "; TStr "linear interpolation";
     TStr nl;
     TStr (tab ++ "The best method for p = "); TInt 5; TStr " is the ";
     TStr "pchip"; TStr nl].
Proof. reflexivity. Qed.

Example header_for_three :
  render (header_tokens 3) =
  text ("r, matched_holder, linear, quadratic_b_spline, cubic_b_spline, "
        ++ "quintic_b_spline, cubic_hermite, pchip, makima, fo_taylor, "
        ++ "quintic_hermite, second_order_taylor" ++ nl).
Proof. reflexivity. Qed.

(* ------------------------------------------------------------------ *)
(** ** Arithmetic of the dyadic grid *)

Lemma shl1_pow2 (r : Z) : shl1 r = (2 ^ r)%Z.
Proof. apply Z.shiftl_1_l. Qed.

Lemma pow2_pos (r : Z) : (0 <= r)%Z -> (0 < 2 ^ r)%Z.
Proof. intros; apply Z.pow_pos_nonneg; lia. Qed.

Lemma inject_Z_pos (z : Z) : (0 < z)%Z -> 0 < inject_Z z.
Proof. intros H. rewrite Zlt_Qlt in H. exact H. Qed.

Lemma Qlt_bool_iff (a b : Real) : Qlt_bool a b = true <-> a < b.
Proof.
  unfold Qlt_bool. rewrite negb_true_iff.
  destruct (Qle_bool b a) eqn:E.
  - apply Qle_bool_iff in E. split; [discriminate | intros; lra].
  - split; [intros _ | reflexivity].
    apply Qnot_le_lt. intros H. apply Qle_bool_iff in H. congruence.
Qed.

Lemma size_t_pred_small (n : nat) :
  (0 < n)%nat -> (Z.of_nat n - 1 < 2 ^ 64)%Z -> size_t_pred n = (n - 1)%nat.
Proof.
  intros Hn Hlt. unfold size_t_pred.
  rewrite Z.mod_small by lia. lia.
Qed.

Lemma size_t_pred_le (n : nat) : (0 < n)%nat -> (size_t_pred n < n)%nat.
Proof.
  intros Hn. unfold size_t_pred.
  assert (H : ((Z.of_nat n - 1) mod 2 ^ 64 <= Z.of_nat n - 1)%Z)
    by (apply Z.mod_le; lia).
  lia.
Qed.


Lemma outside_true (p : Z) (x : Real) :
  outside p x = true <-> x <= 0 \/ of_int (2 * p - 1) <= x.
Proof. unfold outside. rewrite orb_true_iff, !Qle_bool_iff. tauto. Qed.

Lemma outside_false (p : Z) (x : Real) :
  outside p x = false <-> 0 < x /\ x < of_int (2 * p - 1).
Proof.
  rewrite <- not_true_iff_false, outside_true. split.
  - intros H. split; apply Qnot_le_lt; tauto.
  - intros [H1 H2] [H | H]; lra.
Qed.

(** Inside the support, the cell index [floor (2^r x)] and its successor
    are indices of a grid of [(2p-1)*2^r + 1] points. *)
Lemma cell_bounds (p r : Z) (x : Real) :
  (0 <= r)%Z -> 0 < x -> x < of_int (2 * p - 1) ->
  (0 <= Qfloor (of_int (shl1 r) * x))%Z /\
  (Qfloor (of_int (shl1 r) * x) + 1 <= (2 * p - 1) * 2 ^ r)%Z.
Proof.
  intros Hr H0 H1. unfold of_int in *. rewrite shl1_pow2.
  pose proof (inject_Z_pos _ (pow2_pos r Hr)) as Hc.
  set (c := inject_Z (2 ^ r)) in *.
  split.
  - change 0%Z with (Qfloor 0). apply Qfloor_resp_le.
    apply Qlt_le_weak. apply Qmult_lt_0_compat; assumption.
  - assert (Hy : c * x < inject_Z ((2 * p - 1) * 2 ^ r)).
    { rewrite Z.mul_comm, inject_Z_mult. fold c.
      apply Qmult_lt_l; assumption. }
    pose proof (Qfloor_le (c * x)) as Hf.
    assert (Hlt : inject_Z (Qfloor (c * x)) < inject_Z ((2 * p - 1) * 2 ^ r))
      by lra.
    rewrite <- Zlt_Qlt in Hlt. lia.
Qed.

Lemma at_index_some (v : list Real) (k : Z) :
  (0 <= k < Z.of_nat (length v))%Z -> exists a, at_index v k = Some a.
Proof.
  intros [H0 H1]. unfold at_index.
  destruct (k <? 0)%Z eqn:E; [lia |].
  destruct (nth_error v (Z.to_nat k)) eqn:N; [eauto |].
  apply nth_error_None in N. lia.
Qed.

Lemma at_index_nth (v : list Real) (k : Z) (a : Real) :
  at_index v k = Some a -> (0 <= k)%Z /\ nth_error v (Z.to_nat k) = Some a.
Proof.
  unfold at_index. destruct (k <? 0)%Z eqn:E; [discriminate |].
  intros H. split; [lia | exact H].
Qed.

Lemma grid_points_Z (p r : Z) :
  (1 <= p)%Z -> (0 <= r)%Z ->
  Z.of_nat (grid_points p r) = ((2 * p - 1) * 2 ^ r + 1)%Z.
Proof.
  intros Hp Hr. unfold grid_points. pose proof (pow2_pos r Hr). nia.
Qed.

Lemma grid_points_pos (p r : Z) :
  (1 <= p)%Z -> (0 <= r)%Z -> (0 < grid_points p r)%nat.
Proof.
  intros Hp Hr. pose proof (grid_points_Z p r Hp Hr).
  pose proof (pow2_pos r Hr). nia.
Qed.

(* ------------------------------------------------------------------ *)
(** ** The interpolants of the program are defined everywhere *)

Section LambdaFacts.

Variables (p r : Z).
Hypothesis r_nonneg : (0 <= r)%Z.

Lemma support_p (x : Real) : outside p x = false -> (1 <= p)%Z.
Proof.
  intros H. apply outside_false in H. destruct H as [H0 H1].
  assert (H : inject_Z 0 < inject_Z (2 * p - 1))
    by (exact (Qlt_trans _ _ _ H0 H1)).
  rewrite <- Zlt_Qlt in H. lia.
Qed.

Lemma cell_lookup (v : list Real) (x : Real) :
  length v = grid_points p r -> outside p x = false ->
  exists a b,
    at_index v (Qfloor (of_int (shl1 r) * x)) = Some a /\
    at_index v (Qfloor (of_int (shl1 r) * x) + 1) = Some b.
Proof.
  intros Hlen Hout.
  pose proof (support_p x Hout) as Hp.
  apply outside_false in Hout. destruct Hout as [H0 H1].
  destruct (cell_bounds p r x r_nonneg H0 H1) as [Hk0 Hk1].
  pose proof (grid_points_Z p r Hp r_nonneg) as HZ.
  destruct (at_index_some v (Qfloor (of_int (shl1 r) * x))) as [a Ha];
    [rewrite Hlen; lia |].
  destruct (at_index_some v (Qfloor (of_int (shl1 r) * x) + 1)) as [b Hb];
    [rewrite Hlen; lia |].
  eauto.
Qed.

Variables (phi phi_prime phi_dbl_prime phi_triple_prime : list Real).
Hypothesis len0 : length phi = grid_points p r.
Hypothesis len1 : length phi_prime = grid_points p r.
Hypothesis len2 : length phi_dbl_prime = grid_points p r.
Hypothesis len3 : length phi_triple_prime = grid_points p r.

Ltac cell v len x Hout :=
  let a := fresh "a" in
  let b := fresh "b" in
  let Ha := fresh "Ha" in
  let Hb := fresh "Hb" in
  destruct (cell_lookup v x len Hout) as (a & b & Ha & Hb);
  cbv zeta; rewrite ?Ha, ?Hb.

Lemma linear_total (x : Real) : exists v, linear p r phi x = Some v.
Proof.
  unfold linear. fold (outside p x).
  destruct (outside p x) eqn:Hout; [eauto |].
  cell phi len0 x Hout. eauto.
Qed.

Lemma fotaylor_total (x : Real) : exists v, fotaylor p r phi phi_prime x = Some v.
Proof.
  unfold fotaylor. fold (outside p x).
  destruct (outside p x) eqn:Hout; [eauto |].
  cell phi len0 x Hout. cell phi_prime len1 x Hout.
  destruct (Qlt_bool _ _); eauto.
Qed.

Lemma sotaylor_total (x : Real) :
  exists v, sotaylor p r phi phi_prime phi_dbl_prime x = Some v.
Proof.
  unfold sotaylor. fold (outside p x).
  destruct (outside p x) eqn:Hout; [eauto |].
  cell phi len0 x Hout. cell phi_prime len1 x Hout.
  cell phi_dbl_prime len2 x Hout.
  destruct (Qlt_bool _ _); eauto.
Qed.

Lemma totaylor_total (x : Real) :
  exists v, totaylor p r phi phi_prime phi_dbl_prime phi_triple_prime x = Some v.
Proof.
  unfold totaylor. fold (outside p x).
  destruct (outside p x) eqn:Hout; [eauto |].
  cell phi len0 x Hout. cell phi_prime len1 x Hout.
  cell phi_dbl_prime len2 x Hout. cell phi_triple_prime len3 x Hout.
  destruct (Qlt_bool _ _); eauto.
Qed.

End LambdaFacts.

(** C8.  Inside the support [0 < x < 2p-1], and for a grid [phi] of
    [(2p-1)*2^r + 1] points, the index [kk = floor((1<<r)*x)] computed by the
    linear interpolator satisfies [0 <= kk] and [kk+1 <= phi.size()-1]; both
    [phi[kk]] and [phi[kk+1]] are elements of the vector, and the interpolator
    returns the value [(1-t)*phi[kk] + t*phi[kk+1]]. *)
Theorem linear_accesses_in_bounds (p r : Z) (phi : list Real) (x : Real) :
  (0 <= r)%Z ->
  length phi = grid_points p r ->
  0 < x -> x < of_int (2 * p - 1) ->
  let y := of_int (shl1 r) * x in
  let kk := Qfloor y in
  (0 <= kk)%Z /\ (kk + 1 <= Z.of_nat (length phi) - 1)%Z /\
  exists a b,
    nth_error phi (Z.to_nat kk) = Some a /\
    nth_error phi (Z.to_nat (kk + 1)) = Some b /\
    linear p r phi x = Some ((1 - (y - inject_Z kk)) * a + (y - inject_Z kk) * b).
Proof.
  intros Hr Hlen H0 H1 y kk.
  assert (Hout : outside p x = false) by (apply outside_false; split; assumption).
  pose proof (support_p p x Hout) as Hp.
  destruct (cell_bounds p r x Hr H0 H1) as [Hk0 Hk1].
  fold y in Hk0, Hk1. fold kk in Hk0, Hk1.
  split; [exact Hk0 |].
  split; [rewrite Hlen, grid_points_Z by assumption; lia |].
  destruct (cell_lookup p r Hr phi x Hlen Hout) as (a & b & Ha & Hb).
  fold y in Ha, Hb. fold kk in Ha, Hb.
  exists a, b.
  split; [apply at_index_nth in Ha; tauto |].
  split; [apply at_index_nth in Hb; tauto |].
  unfold linear. fold (outside p x). rewrite Hout. cbv zeta.
  fold y. fold kk. rewrite Ha, Hb. reflexivity.
Qed.

Lemma linear_accesses_in_bounds_witness :
  (0 <= Qfloor (of_int (shl1 2) * (5 # 8)))%Z /\
  (Qfloor (of_int (shl1 2) * (5 # 8)) + 1
   <= Z.of_nat (length [0; 1; 4; 9; 16; 9; 4; 1; 0; 0; 0; 0; 0]) - 1)%Z /\
  exists a b,
    nth_error [0; 1; 4; 9; 16; 9; 4; 1; 0; 0; 0; 0; 0]
              (Z.to_nat (Qfloor (of_int (shl1 2) * (5 # 8)))) = Some a /\
    nth_error [0; 1; 4; 9; 16; 9; 4; 1; 0; 0; 0; 0; 0]
              (Z.to_nat (Qfloor (of_int (shl1 2) * (5 # 8)) + 1)) = Some b /\
    linear 2 2 [0; 1; 4; 9; 16; 9; 4; 1; 0; 0; 0; 0; 0] (5 # 8) =
    Some ((1 - (of_int (shl1 2) * (5 # 8)
                - inject_Z (Qfloor (of_int (shl1 2) * (5 # 8))))) * a
          + (of_int (shl1 2) * (5 # 8)
             - inject_Z (Qfloor (of_int (shl1 2) * (5 # 8)))) * b).
Proof.
  apply (linear_accesses_in_bounds 2 2 [0; 1; 4; 9; 16; 9; 4; 1; 0; 0; 0; 0; 0] (5 # 8)).
  - lia.
  - reflexivity.
  - reflexivity.
  - reflexivity.
Defined.

(** C10.  At a node of the candidate grid inside the support, that is at an
    [x] with [0 < x < 2p-1] for which [(1<<r)*x] is an integer [k], the
    linear interpolator returns the grid value [phi[k]] (in exact
    arithmetic). *)
Theorem linear_reproduces_nodes (p r : Z) (phi : list Real) (x : Real) (k : Z) :
  (0 <= r)%Z ->
  length phi = grid_points p r ->
  0 < x -> x < of_int (2 * p - 1) ->
  of_int (shl1 r) * x == inject_Z k ->
  exists v a,
    linear p r phi x = Some v /\
    (0 <= k)%Z /\ nth_error phi (Z.to_nat k) = Some a /\
    v == a.
Proof.
  intros Hr Hlen H0 H1 Hk.
  assert (Hout : outside p x = false) by (apply outside_false; split; assumption).
  destruct (cell_lookup p r Hr phi x Hlen Hout) as (a & b & Ha & Hb).
  assert (Hfl : Qfloor (of_int (shl1 r) * x) = k)
    by (rewrite (Qfloor_comp _ _ Hk); apply Qfloor_Z).
  rewrite Hfl in Ha, Hb.
  exists ((1 - (of_int (shl1 r) * x - inject_Z k)) * a
          + (of_int (shl1 r) * x - inject_Z k) * b), a.
  split.
  { unfold linear. fold (outside p x). rewrite Hout. cbv zeta.
    rewrite Hfl, Ha, Hb. reflexivity. }
  apply at_index_nth in Ha. destruct Ha as [Hk0 Ha].
  split; [exact Hk0 |]. split; [exact Ha |].
  rewrite Hk. ring.
Qed.

Lemma linear_reproduces_nodes_witness :
  exists v a,
    linear 2 2 [0; 1; 4; 9; 16; 9; 4; 1; 0; 0; 0; 0; 0] (3 # 4) = Some v /\
    (0 <= 3)%Z /\
    nth_error [0; 1; 4; 9; 16; 9; 4; 1; 0; 0; 0; 0; 0] (Z.to_nat 3) = Some a /\
    v == a.
Proof.
  apply (linear_reproduces_nodes 2 2 [0; 1; 4; 9; 16; 9; 4; 1; 0; 0; 0; 0; 0]
                                 (3 # 4) 3).
  - lia.
  - reflexivity.
  - reflexivity.
  - reflexivity.
  - reflexivity.
Defined.

(** C9.  The linear interpolator and the first-, second- and third-order
    Taylor interpolators return exactly 0 at every [x] with [x <= 0] or
    [x >= 2p-1]. *)
Theorem interpolants_vanish_outside_support
        (p r : Z) (phi phi_prime phi_dbl_prime phi_triple_prime : list Real)
        (x : Real) :
  x <= 0 \/ of_int (2 * p - 1) <= x ->
  linear p r phi x = Some 0 /\
  fotaylor p r phi phi_prime x = Some 0 /\
  sotaylor p r phi phi_prime phi_dbl_prime x = Some 0 /\
  totaylor p r phi phi_prime phi_dbl_prime phi_triple_prime x = Some 0.
Proof.
  intros H. apply outside_true in H.
  unfold linear, fotaylor, sotaylor, totaylor.
  fold (outside p x). rewrite H. repeat split.
Qed.

Lemma interpolants_vanish_outside_support_witness :
  linear 2 3 [1; 2; 3] 3 = Some 0 /\
  fotaylor 2 3 [1; 2; 3] [4; 5] 3 = Some 0 /\
  sotaylor 2 3 [1; 2; 3] [4; 5] [6] 3 = Some 0 /\
  totaylor 2 3 [1; 2; 3] [4; 5] [6] [7; 8] 3 = Some 0.
Proof.
  apply (interpolants_vanish_outside_support 2 3 [1; 2; 3] [4; 5] [6] [7; 8] 3).
  right. vm_compute. discriminate.
Defined.

(* ------------------------------------------------------------------ *)
(** ** The candidate grid *)

Lemma sample_grid_length (p : Z) (order : nat) (r : Z) :
  length (sample_grid p order r) = grid_points p r.
Proof. unfold sample_grid. rewrite length_map, length_seq. reflexivity. Qed.

Lemma sample_library_sized (p r : Z) : well_sized sample_library p r.
Proof. intros order. apply sample_grid_length. Qed.

Lemma endpoint_library_sized (p r : Z) : well_sized endpoint_library p r.
Proof. intros order. apply sample_grid_length. Qed.







(* ------------------------------------------------------------------ *)
(** ** Logs and runs *)

Lemma fs_of_app (l l' : list event) : fs_of (l ++ l') = fs_of l ++ fs_of l'.
Proof. apply flat_map_app. Qed.

Lemma cout_of_app (l l' : list event) : cout_of (l ++ l') = cout_of l ++ cout_of l'.
Proof. apply flat_map_app. Qed.

Lemma opens_of_app (l l' : list event) :
  opens_of (l ++ l') = opens_of l ++ opens_of l'.
Proof. apply flat_map_app. Qed.

Lemma inserts_of_app (l l' : list event) :
  inserts_of (l ++ l') = inserts_of l ++ inserts_of l'.
Proof. apply flat_map_app. Qed.

Lemma evals_of_app (name : string) (l l' : list event) :
  evals_of name (l ++ l') = evals_of name l ++ evals_of name l'.
Proof. apply flat_map_app. Qed.

Lemma bind_run {A B} (c : M A) (f : A -> M B) l a l' b :
  c = (l, Some a) -> f a = (l', b) -> bind c f = (l ++ l', b).
Proof. intros -> H. unfold bind. rewrite H. reflexivity. Qed.

Lemma bind_some {A B} (c : M A) (f : A -> M B) (b : B) :
  snd (bind c f) = Some b ->
  exists a, snd c = Some a /\ snd (f a) = Some b.
Proof.
  unfold bind. destruct c as [l [a |]]; [| discriminate].
  destruct (f a) as [l' b'] eqn:E. simpl. intros ->.
  exists a. rewrite E. auto.
Qed.

Lemma grid_run (L : Library) (p : Z) (order : nat) (r : Z) :
  grid L p order r = ([Grid p order r], Some (dyadic_grid L p order r)).
Proof. reflexivity. Qed.

Lemma for_each_run {A} (body : A -> M unit) (xs : list A) :
  (forall x, In x xs -> snd (body x) = Some tt) ->
  for_each xs body = (flat_map (fun x => fst (body x)) xs, Some tt).
Proof.
  induction xs as [| x xs IH]; intros H; [reflexivity |].
  simpl. eapply bind_run.
  - rewrite (surjective_pairing (body x)). rewrite (H x) by (left; reflexivity).
    reflexivity.
  - apply IH. intros y Hy. apply H. right. exact Hy.
Qed.

Lemma front_run (v : list Real) :
  (0 < length v)%nat -> front v = ([], Some (hd 0 v)).
Proof. destruct v; simpl; [lia | reflexivity]. Qed.

Lemma back_run (v : list Real) :
  (0 < length v)%nat -> back v = ([], Some (nth (length v - 1) v 0)).
Proof.
  intros H. unfold back, lift.
  destruct (nth_error v (length v - 1)) eqn:E.
  - rewrite (nth_error_nth _ _ _ E). reflexivity.
  - apply nth_error_None in E. lia.
Qed.

(* ------------------------------------------------------------------ *)
(** ** The sup-norm loop *)

Section SupNormFacts.

Variable phi_dense : list Real.
Variable dx_dense : Real.

Lemma error_at_diff (f : Real -> option Real) (i : nat) :
  defined f -> (i < length phi_dense)%nat ->
  error_at phi_dense dx_dense f i (diff_at phi_dense dx_dense f i).
Proof.
  intros Hf Hi. unfold error_at, diff_at.
  destruct (Hf (of_size_t i * dx_dense)) as [v Hv].
  destruct (nth_error phi_dense i) as [ref |] eqn:N;
    [| apply nth_error_None in N; lia].
  exists ref, v. rewrite Hv, (nth_error_nth _ _ _ N). auto.
Qed.

Lemma sup_loop_run (name : string) (f : Real -> option Real) :
  defined f ->
  forall (idx : list nat) (sup : Real),
    (forall i, In i idx -> (i < length phi_dense)%nat) ->
    sup_loop phi_dense dx_dense name f idx sup =
    (map (fun i => Eval name (of_size_t i * dx_dense)) idx,
     Some (sup_over phi_dense dx_dense f idx sup)).
Proof.
  intros Hf. induction idx as [| i rest IH]; intros sup Hidx; [reflexivity |].
  assert (Hi : (i < length phi_dense)%nat) by (apply Hidx; left; reflexivity).
  destruct (error_at_diff f i Hf Hi) as (ref & v & Href & Hv & Hd).
  cbn [sup_loop map sup_over fold_left].
  rewrite Href, Hv. unfold lift, emit, bind.
  rewrite IH by (intros j Hj; apply Hidx; right; exact Hj).
  unfold sup_step. rewrite Hd. reflexivity.
Qed.

Lemma sup_over_ge (f : Real -> option Real) (idx : list nat) (sup : Real) :
  sup <= sup_over phi_dense dx_dense f idx sup.
Proof.
  revert sup. induction idx as [| i rest IH]; intros sup; [apply Qle_refl |].
  cbn [sup_over fold_left]. eapply Qle_trans; [| apply IH].
  unfold sup_step. destruct (Qlt_bool sup (diff_at phi_dense dx_dense f i)) eqn:E.
  - apply Qlt_bool_iff in E. lra.
  - apply Qle_refl.
Qed.

Lemma sup_over_upper (f : Real -> option Real) (idx : list nat) (sup : Real) :
  forall i, In i idx -> diff_at phi_dense dx_dense f i <= sup_over phi_dense dx_dense f idx sup.
Proof.
  revert sup. induction idx as [| j rest IH]; intros sup i Hi; [destruct Hi |].
  cbn [sup_over fold_left]. destruct Hi as [-> | Hi]; [| apply IH; exact Hi].
  eapply Qle_trans; [| apply sup_over_ge].
  unfold sup_step. destruct (Qlt_bool sup (diff_at phi_dense dx_dense f i)) eqn:E.
  - apply Qle_refl.
  - destruct (Qlt_le_dec sup (diff_at phi_dense dx_dense f i)) as [H | H]; [| exact H].
    apply Qlt_bool_iff in H. congruence.
Qed.

Lemma sup_over_attained (f : Real -> option Real) (idx : list nat) (sup : Real) :
  sup_over phi_dense dx_dense f idx sup = sup \/
  exists i, In i idx /\ sup_over phi_dense dx_dense f idx sup = diff_at phi_dense dx_dense f i.
Proof.
  revert sup. induction idx as [| j rest IH]; intros sup; [left; reflexivity |].
  cbn [sup_over fold_left].
  destruct (IH (sup_step phi_dense dx_dense f sup j)) as [H | (i & Hi & H)].
  - fold (sup_over phi_dense dx_dense f rest (sup_step phi_dense dx_dense f sup j)). rewrite H.
    unfold sup_step. destruct (Qlt_bool sup (diff_at phi_dense dx_dense f j)).
    + right. exists j. split; [left; reflexivity | reflexivity].
    + left. reflexivity.
  - right. exists i. split; [right; exact Hi | exact H].
Qed.

(** The loop computes the sup norm over the points it visits. *)
Lemma sup_over_max (f : Real -> option Real) (n : nat) :
  defined f -> (0 < n)%nat -> (n <= length phi_dense)%nat ->
  max_error phi_dense dx_dense f n (sup_over phi_dense dx_dense f (seq 0 n) 0).
Proof.
  intros Hf Hn Hlen. split.
  - intros i Hi. exists (diff_at phi_dense dx_dense f i). split.
    + apply error_at_diff; [assumption | lia].
    + apply sup_over_upper. apply in_seq. lia.
  - destruct (sup_over_attained f (seq 0 n) 0) as [H | (i & Hi & H)].
    + exists 0%nat, (diff_at phi_dense dx_dense f 0). split; [exact Hn |].
      split; [apply error_at_diff; [assumption | lia] |].
      assert (H1 : diff_at phi_dense dx_dense f 0 <= sup_over phi_dense dx_dense f (seq 0 n) 0)
        by (apply sup_over_upper; apply in_seq; lia).
      assert (H2 : 0 <= diff_at phi_dense dx_dense f 0) by apply Qabs_nonneg.
      rewrite H in *. lra.
    + apply in_seq in Hi. exists i, (diff_at phi_dense dx_dense f i).
      split; [lia |]. split; [apply error_at_diff; [assumption | lia] |].
      rewrite H. reflexivity.
Qed.

Lemma compare_run (name : string) (f : Real -> option Real) (n : nat)
      (sep : string) (m : map_t) :
  defined f -> (n <= length phi_dense)%nat ->
  compare phi_dense dx_dense name f n sep m =
  (block_events phi_dense dx_dense name f n sep,
   Some (map_insert (sup_over phi_dense dx_dense f (seq 0 n) 0) name m)).
Proof.
  intros Hf Hn. unfold compare, block_events.
  eapply bind_run.
  - apply sup_loop_run; [exact Hf |]. intros i Hi. apply in_seq in Hi. lia.
  - reflexivity.
Qed.

Lemma fs_of_evals (name : string) (idx : list nat) :
  fs_of (map (fun i => Eval name (of_size_t i * dx_dense)) idx) = [].
Proof. induction idx; [reflexivity | exact IHidx]. Qed.

Lemma cout_of_evals (name : string) (idx : list nat) :
  cout_of (map (fun i => Eval name (of_size_t i * dx_dense)) idx) = [].
Proof. induction idx; [reflexivity | exact IHidx]. Qed.

Lemma opens_of_evals (name : string) (idx : list nat) :
  opens_of (map (fun i => Eval name (of_size_t i * dx_dense)) idx) = [].
Proof. induction idx; [reflexivity | exact IHidx]. Qed.

Lemma inserts_of_evals (name : string) (idx : list nat) :
  inserts_of (map (fun i => Eval name (of_size_t i * dx_dense)) idx) = [].
Proof. induction idx; [reflexivity | exact IHidx]. Qed.

Lemma evals_of_evals (name name' : string) (idx : list nat) :
  evals_of name (map (fun i => Eval name' (of_size_t i * dx_dense)) idx) =
  if String.eqb name' name
  then map (fun i => of_size_t i * dx_dense) idx else [].
Proof.
  unfold evals_of.
  destruct (String.eqb name' name) eqn:E;
    induction idx as [| i idx IH]; try reflexivity;
    cbn [map flat_map]; rewrite E, IH; reflexivity.
Qed.

Lemma fs_of_block name f n sep :
  fs_of (block_events phi_dense dx_dense name f n sep) =
  [TReal (sup_over phi_dense dx_dense f (seq 0 n) 0); TStr sep].
Proof. unfold block_events. rewrite fs_of_app, fs_of_evals. reflexivity. Qed.

Lemma cout_of_block name f n sep : cout_of (block_events phi_dense dx_dense name f n sep) = [].
Proof. unfold block_events. rewrite cout_of_app, cout_of_evals. reflexivity. Qed.

Lemma opens_of_block name f n sep :
  opens_of (block_events phi_dense dx_dense name f n sep) = [].
Proof. unfold block_events. rewrite opens_of_app, opens_of_evals. reflexivity. Qed.

Lemma inserts_of_block name f n sep :
  inserts_of (block_events phi_dense dx_dense name f n sep) =
  [(sup_over phi_dense dx_dense f (seq 0 n) 0, name)].
Proof.
  unfold block_events. rewrite inserts_of_app, inserts_of_evals. reflexivity.
Qed.

Lemma evals_of_block name name' f n sep :
  evals_of name (block_events phi_dense dx_dense name' f n sep) =
  if String.eqb name' name
  then map (fun i => of_size_t i * dx_dense) (seq 0 n) else [].
Proof.
  unfold block_events. rewrite evals_of_app, evals_of_evals.
  cbn [evals_of flat_map app]. apply app_nil_r.
Qed.

End SupNormFacts.

(* ------------------------------------------------------------------ *)
(** ** One resolution *)

Section TableFacts.

Variables (L : Library) (p r : Z).

Lemma total_defined (f : Real -> Real) : forall x, exists v, total f x = Some v.
Proof. intros x. unfold total. eauto. Qed.

Lemma interpolants_defined :
  (0 <= r)%Z -> well_sized L p r ->
  forall name f x, In (name, f) (interpolants L p r) -> exists v, f x = Some v.
Proof.
  intros Hr Hs name f x Hin. unfold interpolants in Hin. cbv zeta in Hin.
  repeat (apply in_app_or in Hin; destruct Hin as [Hin | Hin]);
    repeat match type of Hin with
           | In _ (if ?b then _ else _) => destruct b
           end;
    cbn [In] in Hin;
    repeat match type of Hin with
           | _ \/ _ => destruct Hin as [Hin | Hin]
           | False => destruct Hin
           end;
    apply (f_equal snd) in Hin; cbn [snd] in Hin; subst f;
    first [ apply total_defined
          | apply linear_total; [assumption | apply Hs]
          | apply fotaylor_total; [assumption | apply Hs | apply Hs]
          | apply sotaylor_total; [assumption | apply Hs | apply Hs | apply Hs]
          | apply totaylor_total;
            [assumption | apply Hs | apply Hs | apply Hs | apply Hs] ].
Qed.

End TableFacts.

(** Symbolic execution of a computation whose steps all succeed. *)
Ltac exec_with side :=
  lazymatch goal with
  | |- bind _ _ = _ =>
      eapply bind_run; [exec_with side | cbv beta zeta iota; exec_with side]
  | |- grid _ _ _ _ = _ => apply grid_run
  | |- compare _ _ _ _ _ _ _ = _ => apply compare_run; solve [side]
  | |- front _ = _ => apply front_run; solve [side]
  | |- back _ = _ => apply back_run; solve [side]
  | |- _ => try reflexivity
  end.

Create Rewrite HintDb log.

#[local] Hint Rewrite
  fs_of_app cout_of_app opens_of_app inserts_of_app evals_of_app
  fs_of_block cout_of_block opens_of_block inserts_of_block evals_of_block
  : log.

(** Reads the facts about a log off its explicit form. *)
Ltac log_facts :=
  repeat split;
  [ autorewrite with log; reflexivity ..
  | let name := fresh "name" in
    let f := fresh "f" in
    let Hin := fresh "Hin" in
    intros name f Hin; autorewrite with log;
    cbv zeta in Hin; cbn [app In] in Hin;
    repeat (destruct Hin as [Hin | Hin];
            [ apply (f_equal fst) in Hin; cbn [fst] in Hin; subst name;
              cbn [String.eqb Ascii.eqb Bool.eqb evals_of flat_map app];
              rewrite ?app_nil_r; reflexivity | ]);
    destruct Hin ].

Section ResolutionFacts.

Variables (L : Library) (p r : Z) (phi_dense : list Real) (dx_dense : Real).
Hypothesis p_ge_2 : (2 <= p)%Z.
Hypothesis r_nonneg : (0 <= r)%Z.
Hypothesis sized : well_sized L p r.
Hypothesis dense_nonempty : (0 < length phi_dense)%nat.

Lemma compare_schemes_run :
  exists tr,
    compare_schemes L p phi_dense dx_dense r =
      (tr, Some (map_of (recorded L p r phi_dense dx_dense))) /\
    inserts_of tr = recorded L p r phi_dense dx_dense /\
    fs_of tr = TInt r :: TStr ", " :: cells (map fst (recorded L p r phi_dense dx_dense)) /\
    cout_of tr = [TStr "dx = 1/"; TInt (shl1 r); TStr " = ";
                  TReal (spacing p (length (dyadic_grid L p 0 r))); TStr nl] /\
    opens_of tr = [] /\
    forall name f,
      In (name, f) (interpolants L p r) ->
      evals_of name tr =
      map (fun i => of_size_t i * dx_dense)
          (seq 0 (points_visited (length phi_dense) name)).
Proof.
  assert (H1 : (0 < length (dyadic_grid L p 1 r))%nat)
    by (rewrite sized; apply grid_points_pos; lia).
  assert (Hle : (length phi_dense <= length phi_dense)%nat) by lia.
  assert (Hle' : (size_t_pred (length phi_dense) <= length phi_dense)%nat)
    by (pose proof (size_t_pred_le _ dense_nonempty); lia).
  pose proof (linear_total p r r_nonneg _ (sized 0%nat)) as T0.
  pose proof (fotaylor_total p r r_nonneg _ _ (sized 0%nat) (sized 1%nat)) as T1.
  pose proof (sotaylor_total p r r_nonneg _ _ _ (sized 0%nat) (sized 1%nat)
                             (sized 2%nat)) as T2.
  pose proof (totaylor_total p r r_nonneg _ _ _ _ (sized 0%nat) (sized 1%nat)
                             (sized 2%nat) (sized 3%nat)) as T3.
  assert (Hcases : p = 2%Z \/ p = 3%Z \/ (3 < p)%Z) by lia.
  unfold recorded, interpolants.
  destruct Hcases as [E | [E | E]].
  - assert (E1 : (p =? 2)%Z = true) by lia.
    assert (E2 : (2 <? p)%Z = false) by lia.
    assert (E3 : (3 <? p)%Z = false) by lia.
    rewrite E2, E3. eexists. split.
    { unfold compare_schemes. rewrite E1, E2, E3.
      exec_with ltac:(first [assumption | intros ?; apply total_defined]). }
    log_facts.
  - assert (E1 : (p =? 2)%Z = false) by lia.
    assert (E2 : (2 <? p)%Z = true) by lia.
    assert (E3 : (3 <? p)%Z = false) by lia.
    rewrite E2, E3. eexists. split.
    { unfold compare_schemes. rewrite E1, E2, E3.
      exec_with ltac:(first [assumption | intros ?; apply total_defined]). }
    log_facts.
  - assert (E1 : (p =? 2)%Z = false) by lia.
    assert (E2 : (2 <? p)%Z = true) by lia.
    assert (E3 : (3 <? p)%Z = true) by lia.
    rewrite E2, E3. eexists. split.
    { unfold compare_schemes. rewrite E1, E2, E3.
      exec_with ltac:(first [assumption | intros ?; apply total_defined]). }
    log_facts.
Qed.

End ResolutionFacts.

(* ------------------------------------------------------------------ *)
(** ** Reporting the best scheme *)

Section Report.

Variable p : Z.

(** The scan only writes to the console and always completes. *)
Lemma best_loop_run (m : map_t) :
  forall best best_sup,
  exists l b,
    best_loop m best best_sup = (l, Some b) /\
    fs_of l = [] /\ opens_of l = [] /\ inserts_of l = [] /\
    forall name, evals_of name l = [].
Proof.
  induction m as [| [e1 e2] rest IH]; intros best best_sup.
  - exists [], (best, best_sup). repeat split.
  - cbn [best_loop].
    destruct (Qlt_bool e1 best_sup);
      [destruct (IH e2 e1) as (l & b & Hrun & H1 & H2 & H3 & H4)
      | destruct (IH best best_sup) as (l & b & Hrun & H1 & H2 & H3 & H4)];
      (eexists; exists b; split;
       [ unfold cout; exec_with idtac; exact Hrun
       | autorewrite with log; rewrite H1, H2, H3;
         repeat split; intros name; autorewrite with log; rewrite H4;
         reflexivity ]).
Qed.

Lemma report_best_run (m : map_t) :
  exists l,
    report_best p m = (l, Some tt) /\
    fs_of l = [] /\ opens_of l = [] /\ inserts_of l = [] /\
    forall name, evals_of name l = [].
Proof.
  destruct (best_loop_run m "none" (of_int 1000000000))
    as (l & b & Hrun & H1 & H2 & H3 & H4).
  eexists. split.
  - unfold report_best, cout. eapply bind_run; [exact Hrun |].
    exec_with idtac.
  - autorewrite with log. rewrite H1, H2, H3.
    repeat split. intros name. autorewrite with log. rewrite H4. reflexivity.
Qed.

End Report.

(* ------------------------------------------------------------------ *)
(** ** The whole of find_best_interpolator *)

Lemma fs_of_flat_map {A} (g : A -> list event) (xs : list A) :
  fs_of (flat_map g xs) = flat_map (fun x => fs_of (g x)) xs.
Proof.
  induction xs as [| x xs IH]; [reflexivity |].
  cbn [flat_map]. rewrite fs_of_app, IH. reflexivity.
Qed.

Lemma opens_of_flat_map {A} (g : A -> list event) (xs : list A) :
  opens_of (flat_map g xs) = flat_map (fun x => opens_of (g x)) xs.
Proof.
  induction xs as [| x xs IH]; [reflexivity |].
  cbn [flat_map]. rewrite opens_of_app, IH. reflexivity.
Qed.

Lemma inserts_of_flat_map {A} (g : A -> list event) (xs : list A) :
  inserts_of (flat_map g xs) = flat_map (fun x => inserts_of (g x)) xs.
Proof.
  induction xs as [| x xs IH]; [reflexivity |].
  cbn [flat_map]. rewrite inserts_of_app, IH. reflexivity.
Qed.

Lemma flat_map_ext_in {A B} (f g : A -> list B) (xs : list A) :
  (forall x, In x xs -> f x = g x) -> flat_map f xs = flat_map g xs.
Proof.
  induction xs as [| x xs IH]; intros H; [reflexivity |].
  cbn [flat_map]. rewrite (H x) by (left; reflexivity).
  rewrite IH by (intros y Hy; apply H; right; exact Hy). reflexivity.
Qed.

Lemma flat_map_nil {A B} (xs : list A) :
  flat_map (fun _ : A => @nil B) xs = [].
Proof. induction xs; [reflexivity | exact IHxs]. Qed.

Lemma in_int_range (lo hi x : Z) :
  In x (int_range lo hi) <-> (lo <= x < hi)%Z.
Proof.
  unfold int_range. rewrite in_map_iff. split.
  - intros (i & <- & Hi). apply in_seq in Hi. lia.
  - intros H. exists (Z.to_nat (x - lo)). split; [lia |].
    apply in_seq. lia.
Qed.

Section Sweep.

Variables (L : Library) (p : Z).
Hypothesis p_ge_2 : (2 <= p)%Z.
Hypothesis sized : forall r, (0 <= r)%Z -> well_sized L p r.

Local Abbreviation phi_dense := (dyadic_grid L p 0 rmax).
Local Abbreviation dx_dense := (spacing p (length (dyadic_grid L p 0 rmax))).

Lemma dense_points : (2 <= length phi_dense)%nat.
Proof.
  rewrite (sized rmax) by (unfold rmax; lia).
  pose proof (grid_points_Z p rmax ltac:(lia) ltac:(unfold rmax; lia)) as H.
  pose proof (pow2_pos rmax ltac:(unfold rmax; lia)). nia.
Qed.

(** One turn of the loop over [r]. *)
Lemma loop_body_run (r : Z) :
  In r (int_range 2 (rmax - 1)) ->
  snd (m <- compare_schemes L p phi_dense dx_dense r ;; report_best p m)
  = Some tt /\
  opens_of
    (fst (m <- compare_schemes L p phi_dense dx_dense r ;; report_best p m))
  = [] /\
  fs_of
    (fst (m <- compare_schemes L p phi_dense dx_dense r ;; report_best p m))
  = TInt r :: TStr ", "
    :: cells (map fst (recorded L p r phi_dense dx_dense)) /\
  inserts_of
    (fst (m <- compare_schemes L p phi_dense dx_dense r ;; report_best p m))
  = recorded L p r phi_dense dx_dense.
Proof.
  intros Hr. apply in_int_range in Hr. pose proof dense_points as Hd.
  destruct (compare_schemes_run L p r phi_dense dx_dense p_ge_2
              ltac:(lia) (sized r ltac:(lia)) ltac:(lia))
    as (tr & Hrun & Hins & Hfs & _ & Hop & _).
  destruct (report_best_run p (map_of (recorded L p r phi_dense dx_dense)))
    as (l & Hrep & H1 & H2 & H3 & _).
  rewrite (bind_run _ (fun m => report_best p m) _ _ _ _ Hrun Hrep).
  cbn [fst snd].
  autorewrite with log. rewrite Hins, Hfs, Hop, H1, H2, H3.
  rewrite !app_nil_r. repeat split.
Qed.

Lemma header_run :
  (if (p =? 2)%Z then emit (Fs (TStr nl))
   else emit (Fs (TStr ", quintic_hermite, second_order_taylor")) ;;;
        if (3 <? p)%Z
        then emit (Fs (TStr (", third_order_taylor, septic_hermite" ++ nl)))
        else emit (Fs (TStr nl))) =
  (map Fs (tl (header_tokens p)), Some tt).
Proof.
  unfold header_tokens. cbn [tl].
  destruct (p =? 2)%Z; [reflexivity |].
  destruct (3 <? p)%Z; reflexivity.
Qed.

Lemma find_best_interpolator_run :
  exists tr,
    find_best_interpolator L p = (tr, Some tt) /\
    opens_of tr = [filename p] /\
    fs_of tr =
      header_tokens p ++
      flat_map (fun r => TInt r :: TStr ", "
                         :: cells (map fst (recorded L p r phi_dense dx_dense)))
               (int_range 2 (rmax - 1)) /\
    inserts_of tr =
      flat_map (fun r => recorded L p r phi_dense dx_dense)
               (int_range 2 (rmax - 1)).
Proof.
  eexists. split.
  { unfold find_best_interpolator, fs, cout.
    eapply bind_run; [reflexivity |].
    eapply bind_run; [reflexivity |].
    eapply bind_run; [apply grid_run |]. cbv beta zeta.
    eapply bind_run; [reflexivity |].
    eapply bind_run; [reflexivity |].
    eapply bind_run; [exact header_run |].
    apply for_each_run. intros r Hr. apply (loop_body_run r Hr). }
  autorewrite with log.
  rewrite fs_of_flat_map, opens_of_flat_map, inserts_of_flat_map.
  split; [| split].
  - rewrite (flat_map_ext_in _ (fun _ => []) (int_range 2 (rmax - 1)))
      by (intros r Hr; apply (loop_body_run r Hr)).
    rewrite flat_map_nil.
    unfold header_tokens.
    destruct (p =? 2)%Z; [reflexivity |].
    destruct (3 <? p)%Z; reflexivity.
  - rewrite (flat_map_ext_in _
               (fun r => TInt r :: TStr ", "
                         :: cells (map fst (recorded L p r phi_dense dx_dense)))
               (int_range 2 (rmax - 1)))
      by (intros r Hr; apply (loop_body_run r Hr)).
    unfold header_tokens.
    destruct (p =? 2)%Z; [reflexivity |].
    destruct (3 <? p)%Z; reflexivity.
  - rewrite (flat_map_ext_in _
               (fun r => recorded L p r phi_dense dx_dense)
               (int_range 2 (rmax - 1)))
      by (intros r Hr; apply (loop_body_run r Hr)).
    unfold header_tokens.
    destruct (p =? 2)%Z; [reflexivity |].
    destruct (3 <? p)%Z; reflexivity.
Qed.

End Sweep.

(* ------------------------------------------------------------------ *)
(** ** The recorded errors are sup norms *)

Lemma Forall2_map_right {A B} (R : A -> B -> Prop) (g : A -> B) (l : list A) :
  (forall x, In x l -> R x (g x)) -> Forall2 R l (map g l).
Proof.
  induction l as [| x l IH]; intros H; [constructor |].
  cbn [map]. constructor.
  - apply H. left. reflexivity.
  - apply IH. intros y Hy. apply H. right. exact Hy.
Qed.

(** C2, as amended.  At every resolution the CSV row lists, after [r], the
    errors inserted into [m], one per interpolant and in the same order.
    Every interpolant other than the matched-Holder one is called at all
    the reference abscissas [i*dx_dense], [0 <= i < phi_dense.size()], and
    its error is the maximum of [|phi_dense[i] - f(i*dx_dense)|] over those
    [i]; the matched-Holder interpolant is called at all of them but the
    last, and its error is the maximum over [0 <= i < phi_dense.size()-1]. *)
Theorem errors_are_sup_norms
        (L : Library) (p r : Z) (phi_dense : list Real) (dx_dense : Real) :
  (2 <= p)%Z -> (0 <= r)%Z -> well_sized L p r ->
  (2 <= length phi_dense)%nat -> (Z.of_nat (length phi_dense) - 1 < 2 ^ 64)%Z ->
  (exists m, snd (compare_schemes L p phi_dense dx_dense r) = Some m) /\
  fs_of (fst (compare_schemes L p phi_dense dx_dense r)) =
    TInt r :: TStr ", "
    :: cells (map fst (inserts_of (fst (compare_schemes L p phi_dense dx_dense r))))
  /\
  Forall2
    (fun nf en =>
       snd en = fst nf /\
       evals_of (fst nf) (fst (compare_schemes L p phi_dense dx_dense r)) =
         map (fun i => of_size_t i * dx_dense)
             (seq 0 (if String.eqb (fst nf) "matched_holder"
                     then length phi_dense - 1 else length phi_dense)) /\
       max_error phi_dense dx_dense (snd nf)
                 (if String.eqb (fst nf) "matched_holder"
                  then length phi_dense - 1 else length phi_dense)
                 (fst en))
    (interpolants L p r)
    (inserts_of (fst (compare_schemes L p phi_dense dx_dense r))).
Proof.
  intros Hp Hr Hs Hn Hbound.
  destruct (compare_schemes_run L p r phi_dense dx_dense Hp Hr Hs ltac:(lia))
    as (tr & Hrun & Hins & Hfs & _ & _ & Hev).
  rewrite Hrun. cbn [fst snd].
  split; [eauto |]. split; [rewrite Hins; exact Hfs |].
  rewrite Hins. unfold recorded.
  assert (Hpv : forall name,
             points_visited (length phi_dense) name =
             if String.eqb name "matched_holder"
             then (length phi_dense - 1)%nat else length phi_dense).
  { intros name. unfold points_visited.
    rewrite size_t_pred_small by lia. reflexivity. }
  apply Forall2_map_right. intros [name f] Hin. cbn [fst snd].
  split; [reflexivity |].
  rewrite <- Hpv. split.
  - apply (Hev name f Hin).
  - apply sup_over_max.
    + intros x. apply (interpolants_defined L p r Hr Hs name f x Hin).
    + rewrite Hpv. destruct (String.eqb name "matched_holder"); lia.
    + rewrite Hpv. destruct (String.eqb name "matched_holder"); lia.
Qed.

Lemma errors_are_sup_norms_witness :
  (exists m, snd (compare_schemes sample_library 2 sample_dense sample_dx 2)
             = Some m) /\
  fs_of (fst (compare_schemes sample_library 2 sample_dense sample_dx 2)) =
    TInt 2 :: TStr ", "
    :: cells (map fst (inserts_of
                         (fst (compare_schemes sample_library 2 sample_dense
                                               sample_dx 2))))
  /\
  Forall2
    (fun nf en =>
       snd en = fst nf /\
       evals_of (fst nf)
                (fst (compare_schemes sample_library 2 sample_dense sample_dx 2)) =
         map (fun i => of_size_t i * sample_dx)
             (seq 0 (if String.eqb (fst nf) "matched_holder"
                     then length sample_dense - 1 else length sample_dense)) /\
       max_error sample_dense sample_dx (snd nf)
                 (if String.eqb (fst nf) "matched_holder"
                  then length sample_dense - 1 else length sample_dense)
                 (fst en))
    (interpolants sample_library 2 2)
    (inserts_of (fst (compare_schemes sample_library 2 sample_dense sample_dx 2))).
Proof.
  apply (errors_are_sup_norms sample_library 2 2 sample_dense sample_dx).
  - lia.
  - lia.
  - apply sample_library_sized.
  - vm_compute. lia.
  - vm_compute. reflexivity.
Defined.

(** C2 as stated fails for the matched-Holder interpolant: on a reference
    grid of three points it is compared at the first two only, so the error
    it records is not the maximum over all three. *)
Lemma matched_holder_skips_last_point :
  exists e,
    In (e, "matched_holder")
       (inserts_of (fst (compare_schemes endpoint_library 2 three_points
                                         three_points_dx 2))) /\
    ~ max_error three_points three_points_dx
        (total (matched_holder endpoint_library
                               (dyadic_grid endpoint_library 2 0 2)
                               (dyadic_grid endpoint_library 2 1 2) 2))
        (length three_points) e.
Proof.
  exists 1. split.
  - vm_compute. left. reflexivity.
  - intros [Hub _].
    destruct (Hub 2%nat ltac:(vm_compute; lia))
      as (d & (ref & v & Href & Hv & Hd) & Hle).
    vm_compute in Href, Hv.
    injection Href as <-. injection Hv as <-.
    subst d. vm_compute in Hle. apply Hle. reflexivity.
Qed.

(* ------------------------------------------------------------------ *)
(** ** How many schemes are compared *)





(* ------------------------------------------------------------------ *)
(** ** The CSV table *)

Lemma flat_map_nested {A B C} (f : A -> list B) (g : B -> list C) (l : list A) :
  flat_map g (flat_map f l) = flat_map (fun x => flat_map g (f x)) l.
Proof.
  induction l as [| x l IH]; [reflexivity |].
  cbn [flat_map]. rewrite flat_map_app, IH. reflexivity.
Qed.

Lemma flat_map_of_map {A B C} (f : A -> B) (g : B -> list C) (l : list A) :
  flat_map g (map f l) = flat_map (fun x => g (f x)) l.
Proof.
  induction l as [| x l IH]; [reflexivity |].
  cbn [flat_map map]. rewrite IH. reflexivity.
Qed.

Lemma render_app (ts ts' : list tok) : render (ts ++ ts') = render ts ++ render ts'.
Proof. apply flat_map_app. Qed.

Lemma render_cells (es : list Real) :
  es <> [] ->
  render (cells es) = join (text ", ") (map (fun e => [Num e]) es) ++ text nl.
Proof.
  induction es as [| e es IH]; intros Hne; [congruence |].
  destruct es as [| e' es]; [reflexivity |].
  change (cells (e :: e' :: es)) with (TReal e :: TStr ", " :: cells (e' :: es)).
  change (render (TReal e :: TStr ", " :: cells (e' :: es)))
    with ([Num e] ++ text ", " ++ render (cells (e' :: es))).
  rewrite IH by discriminate.
  cbn [map join]. rewrite <- !app_assoc. reflexivity.
Qed.

Lemma render_row (r : Z) (es : list Real) :
  es <> [] ->
  render (TInt r :: TStr ", " :: cells es) =
  csv_line (text (to_string r) :: map (fun e => [Num e]) es).
Proof.
  intros Hne.
  change (render (TInt r :: TStr ", " :: cells es))
    with (text (to_string r) ++ text ", " ++ render (cells es)).
  rewrite render_cells by exact Hne.
  unfold csv_line. destruct es as [| e es]; [congruence |].
  cbn [map join]. rewrite <- !app_assoc. reflexivity.
Qed.

Lemma render_header (p : Z) :
  (2 <= p)%Z -> render (header_tokens p) = csv_line (map text (columns p)).
Proof.
  intros Hp. unfold header_tokens, columns.
  assert (Hcases : p = 2%Z \/ p = 3%Z \/ (3 < p)%Z) by lia.
  destruct Hcases as [E | [E | E]].
  - replace (p =? 2)%Z with true by lia.
    replace (2 <? p)%Z with false by lia. replace (3 <? p)%Z with false by lia.
    vm_compute. reflexivity.
  - replace (p =? 2)%Z with false by lia.
    replace (2 <? p)%Z with true by lia. replace (3 <? p)%Z with false by lia.
    vm_compute. reflexivity.
  - replace (p =? 2)%Z with false by lia.
    replace (2 <? p)%Z with true by lia. replace (3 <? p)%Z with true by lia.
    vm_compute. reflexivity.
Qed.

Lemma recorded_length (L : Library) (p r : Z) (pd : list Real) (dx : Real) :
  (2 <= p)%Z ->
  S (length (recorded L p r pd dx)) = length (columns p).
Proof.
  intros Hp. unfold recorded, interpolants, columns. cbv zeta.
  rewrite length_map.
  destruct (2 <? p)%Z; destruct (3 <? p)%Z; reflexivity.
Qed.

Lemma Forall2_map_map {A B C} (R : B -> C -> Prop) (h : A -> B) (g : A -> C)
      (l : list A) :
  (forall x, In x l -> R (h x) (g x)) -> Forall2 R (map h l) (map g l).
Proof.
  induction l as [| x l IH]; intros H; [constructor |].
  cbn [map]. constructor.
  - apply H. left. reflexivity.
  - apply IH. intros y Hy. apply H. right. exact Hy.
Qed.

Lemma Forall2_of_map_left {A B C} (R : B -> C -> Prop) (h : A -> B)
      (l : list A) (l' : list C) :
  Forall2 R (map h l) l' -> Forall2 (fun a c => R (h a) c) l l'.
Proof.
  revert l'. induction l as [| x l IH]; intros l' H; inversion H; subst.
  - constructor.
  - constructor; [assumption | apply IH; assumption].
Qed.

Lemma columns_schemes (L : Library) (p r : Z) :
  map scheme_of_column (tl (columns p)) = map fst (interpolants L p r).
Proof.
  unfold columns, interpolants. cbv zeta.
  destruct (2 <? p)%Z; destruct (3 <? p)%Z; reflexivity.
Qed.

(** The matched-Holder loop visits at least one point of the reference
    grid: [(2p-1)*2^17] is no multiple of [2^64]. *)
Lemma dense_visited (L : Library) (p : Z) (name : string) :
  (2 <= p)%Z -> well_sized L p rmax ->
  (0 < points_visited (length (dyadic_grid L p 0 rmax)) name
   <= length (dyadic_grid L p 0 rmax))%nat.
Proof.
  intros Hp Hs. rewrite (Hs 0%nat).
  pose proof (grid_points_Z p rmax ltac:(lia) ltac:(unfold rmax; lia)) as HZ.
  change (2 ^ rmax)%Z with 131072%Z in HZ.
  unfold points_visited. destruct (String.eqb name "matched_holder"); [| lia].
  unfold size_t_pred. rewrite HZ.
  change (2 ^ 64)%Z with 18446744073709551616%Z.
  split.
  - assert (H : (((2 * p - 1) * 131072 + 1 - 1) mod 18446744073709551616 <> 0)%Z)
      by (Z.div_mod_to_equations; lia).
    assert (H' : (0 <= ((2 * p - 1) * 131072 + 1 - 1) mod 18446744073709551616)%Z)
      by (apply Z.mod_pos_bound; lia).
    lia.
  - assert (H : (((2 * p - 1) * 131072 + 1 - 1) mod 18446744073709551616
                 <= (2 * p - 1) * 131072 + 1 - 1)%Z)
      by (apply Z.mod_le; lia).
    lia.
Qed.

(** C5.  For [p >= 2] and a library returning grids of the expected size,
    [find_best_interpolator] runs to completion; it opens the one file
    [daubechies_<p>_scaling_convergence.csv] and what it writes there is a
    CSV table: the header line naming the columns appropriate to [p], then
    one line for each [r = 2, ..., 15 = rmax - 2], in this order, made of [r]
    and, under each column after the first, the error inserted in [m] for
    the scheme the column names: the sup norm of the difference between the
    reference grid and that scheme's interpolant at resolution [r], over
    the reference points its loop visits (all of them, but for the
    matched-Holder column, whose loop stops at [size() - 1]). *)
Theorem csv_output (L : Library) (p : Z) :
  (2 <= p)%Z ->
  (forall r, (0 <= r)%Z -> well_sized L p r) ->
  snd (find_best_interpolator L p) = Some tt /\
  opens_of (fst (find_best_interpolator L p)) =
    [("daubechies_" ++ to_string p ++ "_scaling_convergence.csv")%string] /\
  exists rows : list (Z * list Real),
    render (fs_of (fst (find_best_interpolator L p))) =
      csv_table (columns p) rows /\
    map fst rows = [2; 3; 4; 5; 6; 7; 8; 9; 10; 11; 12; 13; 14; 15]%Z /\
    Forall (fun row => S (length (snd row)) = length (columns p)) rows /\
    concat (map snd rows) =
      map fst (inserts_of (fst (find_best_interpolator L p))) /\
    Forall
      (fun row =>
         Forall2
           (fun column e =>
              exists f,
                In (scheme_of_column column, f) (interpolants L p (fst row)) /\
                max_error (dyadic_grid L p 0 rmax)
                          (spacing p (length (dyadic_grid L p 0 rmax))) f
                          (points_visited (length (dyadic_grid L p 0 rmax))
                                          (scheme_of_column column))
                          e)
           (tl (columns p)) (snd row))
      rows.
Proof.
  intros Hp Hs.
  destruct (find_best_interpolator_run L p Hp Hs)
    as (tr & Hrun & Hop & Hfs & Hins).
  rewrite Hrun. cbn [fst snd].
  split; [reflexivity |]. split; [exact Hop |].
  set (pd := dyadic_grid L p 0 rmax) in *.
  set (dx := spacing p (length pd)) in *.
  exists (map (fun r => (r, map fst (recorded L p r pd dx)))
              (int_range 2 (rmax - 1))).
  assert (Hne : forall r, map fst (recorded L p r pd dx) <> []).
  { intros r E. pose proof (recorded_length L p r pd dx Hp) as Hl.
    rewrite <- (length_map fst), E in Hl.
    unfold columns in Hl. rewrite length_app in Hl. cbn in Hl. lia. }
  split; [| split; [| split; [| split]]].
  - rewrite Hfs, render_app, render_header by exact Hp.
    unfold csv_table. f_equal.
    unfold render. rewrite flat_map_nested, flat_map_of_map.
    apply flat_map_ext_in. intros r _. cbn [fst snd].
    apply (render_row r _ (Hne r)).
  - rewrite map_map. cbn [fst]. rewrite map_id. reflexivity.
  - apply Forall_forall. intros row Hrow.
    apply in_map_iff in Hrow. destruct Hrow as (r & <- & _).
    cbn [snd]. rewrite length_map. apply recorded_length. exact Hp.
  - rewrite Hins, map_map. cbn [snd].
    rewrite <- flat_map_concat_map.
    generalize (int_range 2 (rmax - 1)) as rs.
    induction rs as [| r rs IH]; [reflexivity |].
    cbn [flat_map]. rewrite map_app, IH. reflexivity.
  - apply Forall_forall. intros row Hrow.
    apply in_map_iff in Hrow. destruct Hrow as (r & <- & Hr).
    apply in_int_range in Hr. cbn [fst snd].
    apply (Forall2_of_map_left
             (fun name e =>
                exists f, In (name, f) (interpolants L p r) /\
                          max_error pd dx f (points_visited (length pd) name) e)).
    rewrite (columns_schemes L p r). unfold recorded. rewrite map_map.
    apply Forall2_map_map. intros [name f] Hin. cbn [fst snd].
    exists f. split; [exact Hin |].
    destruct (dense_visited L p name Hp (Hs rmax ltac:(unfold rmax; lia)))
      as [Hpos Hle].
    apply sup_over_max; [| exact Hpos | exact Hle].
    intros x. apply (interpolants_defined L p r ltac:(lia) (Hs r ltac:(lia))
                       name f x Hin).
Qed.

Lemma csv_output_witness :
  snd (find_best_interpolator sample_library 2) = Some tt /\
  opens_of (fst (find_best_interpolator sample_library 2)) =
    [("daubechies_" ++ to_string 2 ++ "_scaling_convergence.csv")%string] /\
  exists rows : list (Z * list Real),
    render (fs_of (fst (find_best_interpolator sample_library 2))) =
      csv_table (columns 2) rows /\
    map fst rows = [2; 3; 4; 5; 6; 7; 8; 9; 10; 11; 12; 13; 14; 15]%Z /\
    Forall (fun row => S (length (snd row)) = length (columns 2)) rows /\
    concat (map snd rows) =
      map fst (inserts_of (fst (find_best_interpolator sample_library 2))) /\
    Forall
      (fun row =>
         Forall2
           (fun column e =>
              exists f,
                In (scheme_of_column column, f)
                   (interpolants sample_library 2 (fst row)) /\
                max_error (dyadic_grid sample_library 2 0 rmax)
                          (spacing 2 (length (dyadic_grid sample_library 2 0 rmax)))
                          f
                          (points_visited
                             (length (dyadic_grid sample_library 2 0 rmax))
                             (scheme_of_column column))
                          e)
           (tl (columns 2)) (snd row))
      rows.
Proof.
  apply (csv_output sample_library 2).
  - lia.
  - intros r _. apply sample_library_sized.
Defined.

(* ------------------------------------------------------------------ *)
(** ** main *)

Lemma bind_ret_tt (c : M unit) : (c ;;; ret tt) = c.
Proof.
  destruct c as [l [[] |]]; unfold bind, ret; [| reflexivity].
  rewrite app_nil_r. reflexivity.
Qed.

Lemma main_as_loop (L : Library) :
  main L =
    for_each [2; 3; 4; 5; 6; 7; 8; 9; 10; 11; 12; 13; 14; 15]%Z
             (find_best_interpolator L).
Proof. unfold main. cbn [for_each]. rewrite bind_ret_tt. reflexivity. Qed.

(** With a library returning grids of the expected size, [main] runs to
    completion and opens the fourteen files in the order of [p]. *)
Lemma main_run (L : Library) :
  (forall p r, (2 <= p <= 15)%Z -> (0 <= r)%Z -> well_sized L p r) ->
  snd (main L) = Some tt /\
  opens_of (fst (main L)) =
    map filename [2; 3; 4; 5; 6; 7; 8; 9; 10; 11; 12; 13; 14; 15]%Z.
Proof.
  intros Hs.
  assert (Hp : forall p,
             In p [2; 3; 4; 5; 6; 7; 8; 9; 10; 11; 12; 13; 14; 15]%Z ->
             snd (find_best_interpolator L p) = Some tt /\
             opens_of (fst (find_best_interpolator L p)) = [filename p]).
  { intros p Hin.
    assert (Hrange : (2 <= p <= 15)%Z) by (cbn [In] in Hin; lia).
    destruct (find_best_interpolator_run L p ltac:(lia)
                (fun r Hr => Hs p r Hrange Hr)) as (tr & Hrun & Hop & _).
    rewrite Hrun. split; [reflexivity | exact Hop]. }
  rewrite main_as_loop, for_each_run by (intros p Hin; apply (Hp p Hin)).
  cbn [fst snd]. split; [reflexivity |].
  rewrite opens_of_flat_map.
  rewrite (flat_map_ext_in _ (fun p => [filename p]) _
             (fun p Hin => proj2 (Hp p Hin))).
  reflexivity.
Qed.


(* ------------------------------------------------------------------ *)
(** ** The best scheme *)

Lemma map_insert_in (k : Real) (v : string) (m : map_t) (en : Real * string) :
  In en (map_insert k v m) -> en = (k, v) \/ In en m.
Proof.
  induction m as [| [k' v'] rest IH]; cbn [map_insert].
  - intros [H | []]. left. symmetry. exact H.
  - destruct (k ?= k').
    + intros H. right. exact H.
    + intros [H | H]; [left; symmetry; exact H | right; exact H].
    + intros [H | H]; [right; left; exact H |].
      destruct (IH H) as [H' | H']; [left; exact H' | right; right; exact H'].
Qed.

Lemma map_insert_ordered (k : Real) (v : string) (m : map_t) :
  ordered m -> ordered (map_insert k v m).
Proof.
  unfold ordered. induction m as [| [k' v'] rest IH]; intros Hm; cbn [map_insert].
  - constructor; constructor.
  - apply StronglySorted_inv in Hm. destruct Hm as [Hrest Hall].
    destruct (Qcompare_spec k k') as [E | E | E].
    + constructor; assumption.
    + constructor; [constructor; assumption |].
      constructor; [exact E |].
      apply Forall_forall. intros en Hen.
      rewrite Forall_forall in Hall. specialize (Hall en Hen).
      cbn [fst] in *. lra.
    + constructor; [apply IH; exact Hrest |].
      apply Forall_forall. intros en Hen.
      destruct (map_insert_in _ _ _ _ Hen) as [-> | Hin]; [exact E |].
      rewrite Forall_forall in Hall. apply Hall. exact Hin.
Qed.

Lemma compare_ordered pd dx name f n sep (m m' : map_t) :
  ordered m -> snd (compare pd dx name f n sep m) = Some m' -> ordered m'.
Proof.
  intros Hm H. unfold compare in H.
  apply bind_some in H. destruct H as (sup & _ & H).
  cbn in H. injection H as <-. apply map_insert_ordered. exact Hm.
Qed.

(** Walks a completed run back through its steps, keeping what is known
    about the successive values of [m]. *)
Ltac invert_run H :=
  cbv beta zeta in H;
  lazymatch type of H with
  | snd (bind _ _) = Some _ =>
      let a := fresh "a" in
      let Ha := fresh "Ha" in
      apply bind_some in H; destruct H as (a & Ha & H);
      invert_run Ha; invert_run H
  | snd (if ?b then _ else _) = Some _ => destruct b; invert_run H
  | snd (compare _ _ _ _ _ _ _) = Some _ =>
      apply compare_ordered in H; [| assumption]
  | snd (ret _) = Some _ => cbn [ret snd] in H; injection H as <-
  | _ => clear H
  end.

Lemma compare_schemes_ordered
      (L : Library) (p r : Z) (phi_dense : list Real) (dx_dense : Real)
      (m : map_t) :
  snd (compare_schemes L p phi_dense dx_dense r) = Some m -> ordered m.
Proof.
  intros H. assert (H0 : ordered []) by constructor.
  unfold compare_schemes in H.
  invert_run H; assumption.
Qed.

Section Best.

Variable p : Z.

(** Once [best_sup] is at most every remaining key, the scan keeps it. *)
Lemma best_loop_keeps (m : map_t) (best : string) (best_sup : Real) :
  (forall en, In en m -> best_sup <= fst en) ->
  exists l, best_loop m best best_sup = (l, Some (best, best_sup)).
Proof.
  induction m as [| [e1 e2] rest IH]; intros Hall.
  - eexists. reflexivity.
  - destruct IH as [l Hl]; [intros en Hen; apply Hall; right; exact Hen |].
    assert (E : Qlt_bool e1 best_sup = false).
    { apply not_true_iff_false. rewrite Qlt_bool_iff.
      specialize (Hall (e1, e2) (or_introl eq_refl)). cbn [fst] in Hall. lra. }
    cbn [best_loop]. rewrite E. eexists.
    unfold cout. exec_with idtac. exact Hl.
Qed.

(** What the scan of an ordered map returns. *)
Lemma best_loop_result (m : map_t) :
  ordered m ->
  exists l b,
    best_loop m "none" (of_int 1000000000) = (l, Some b) /\
    ((exists en, In en m /\ fst en < of_int 1000000000) ->
     In (snd b, fst b) m /\ forall en, In en m -> snd b <= fst en) /\
    ((forall en, In en m -> of_int 1000000000 <= fst en) -> fst b = "none").
Proof.
  intros Hm. destruct m as [| [e1 e2] rest].
  - do 2 eexists. split; [reflexivity |]. split.
    + intros (en & [] & _).
    + reflexivity.
  - apply StronglySorted_inv in Hm. destruct Hm as [_ Hall].
    rewrite Forall_forall in Hall. cbn [fst] in Hall.
    cbn [best_loop]. destruct (Qlt_bool e1 (of_int 1000000000)) eqn:E.
    + destruct (best_loop_keeps rest e2 e1) as [l Hl].
      { intros en Hen. apply Qlt_le_weak. apply Hall. exact Hen. }
      do 2 eexists. split; [unfold cout; exec_with idtac; exact Hl |].
      cbn [fst snd]. split.
      * intros _. split; [left; reflexivity |].
        intros en [<- | Hen]; [apply Qle_refl |].
        apply Qlt_le_weak. apply Hall. exact Hen.
      * intros Habove. apply Qlt_bool_iff in E.
        specialize (Habove (e1, e2) (or_introl eq_refl)).
        cbn [fst] in Habove. lra.
    + assert (Hge : of_int 1000000000 <= e1).
      { destruct (Qlt_le_dec e1 (of_int 1000000000)) as [H | H]; [| exact H].
        apply Qlt_bool_iff in H. congruence. }
      destruct (best_loop_keeps rest "none" (of_int 1000000000)) as [l Hl].
      { intros en Hen. specialize (Hall en Hen). lra. }
      do 2 eexists. split; [unfold cout; exec_with idtac; exact Hl |].
      cbn [fst snd]. split.
      * intros (en & [<- | Hen] & Hlt); cbn [fst] in Hlt; [lra |].
        specialize (Hall en Hen). lra.
      * reflexivity.
Qed.

End Best.

(** *** What the insertions leave in the map *)

Lemma has_key_dec (m : map_t) (k : Real) : {has_key m k} + {~ has_key m k}.
Proof.
  induction m as [| [k' v'] rest IH].
  - right. intros (en & [] & _).
  - destruct (Qeq_dec k' k) as [E | E].
    + left. exists (k', v'). split; [left; reflexivity | exact E].
    + destruct IH as [H | H].
      * left. destruct H as (en & Hin & He). exists en. split; [right |]; assumption.
      * right. intros (en & [<- | Hin] & He); [exact (E He) |].
        apply H. exists en. split; assumption.
Qed.

Lemma map_insert_present (k : Real) (v : string) (m : map_t) :
  ordered m -> has_key m k -> map_insert k v m = m.
Proof.
  unfold ordered. induction m as [| [k' v'] rest IH]; intros Hm Hk.
  - destruct Hk as (en & [] & _).
  - apply StronglySorted_inv in Hm. destruct Hm as [Hrest Hall].
    rewrite Forall_forall in Hall.
    cbn [map_insert]. destruct Hk as (en & [<- | Hin] & He).
    + cbn [fst] in He. symmetry in He. apply Qeq_alt in He. rewrite He.
      reflexivity.
    + assert (Hgt : k' < k).
      { specialize (Hall en Hin). cbn [fst] in Hall. rewrite <- He. exact Hall. }
      apply Qgt_alt in Hgt. rewrite Hgt. f_equal.
      apply IH; [exact Hrest |]. exists en. split; assumption.
Qed.

Lemma map_insert_absent (k : Real) (v : string) (m : map_t) :
  ~ has_key m k ->
  (forall en, In en (map_insert k v m) <-> en = (k, v) \/ In en m) /\
  length (map_insert k v m) = S (length m).
Proof.
  induction m as [| [k' v'] rest IH]; intros Hk.
  - split; [| reflexivity]. intros en. cbn. intuition auto.
  - cbn [map_insert]. destruct (Qcompare_spec k k') as [E | E | E].
    + exfalso. apply Hk. exists (k', v'). split; [left; reflexivity |].
      symmetry. exact E.
    + split; [| reflexivity]. intros en. cbn [In]. intuition auto.
    + destruct IH as [IHin IHlen].
      { intros (en & Hin & He). apply Hk. exists en. split; [right |]; assumption. }
      split; [| cbn [length]; rewrite IHlen; reflexivity].
      intros en. cbn [In]. rewrite IHin. intuition auto.
Qed.

Lemma has_key_insert (k k0 : Real) (v : string) (m : map_t) :
  ~ has_key m k0 ->
  (has_key (map_insert k0 v m) k <-> k0 == k \/ has_key m k).
Proof.
  intros Habs. destruct (map_insert_absent k0 v m Habs) as [Hin _]. split.
  - intros (en & H & He). apply Hin in H. destruct H as [-> | H].
    + left. exact He.
    + right. exists en. split; assumption.
  - intros [E | (en & H & He)].
    + exists (k0, v). split; [apply Hin; left; reflexivity | exact E].
    + exists en. split; [apply Hin; right; exact H | exact He].
Qed.

Lemma first_with_key_cons (a en : Real * string) (rest : list (Real * string)) :
  first_with_key (a :: rest) en <->
  en = a \/ (~ fst a == fst en /\ first_with_key rest en).
Proof.
  unfold first_with_key. split.
  - intros (l1 & l2 & Heq & Hno). destruct l1 as [| b l1].
    + left. cbn in Heq. injection Heq as -> _. reflexivity.
    + right. cbn in Heq. injection Heq as -> ->. split.
      * apply Hno. left. reflexivity.
      * exists l1, l2. split; [reflexivity |].
        intros e' He'. apply Hno. right. exact He'.
  - intros [-> | (Hne & l1 & l2 & -> & Hno)].
    + exists [], rest. split; [reflexivity |]. intros e' [].
    + exists (a :: l1), l2. split; [reflexivity |].
      intros e' [<- | He']; [exact Hne | apply Hno; exact He'].
Qed.

(** What a sequence of insertions leaves in the map. *)
Lemma fill_spec (ins : list (Real * string)) :
  forall m0,
    ordered m0 ->
    ordered (fold_left (fun m en => map_insert (fst en) (snd en) m) ins m0) /\
    forall en,
      In en (fold_left (fun m en => map_insert (fst en) (snd en) m) ins m0) <->
      In en m0 \/ (~ has_key m0 (fst en) /\ first_with_key ins en).
Proof.
  induction ins as [| [ka va] rest IH]; intros m0 Hm0.
  - split; [exact Hm0 |]. intros en. cbn [fold_left]. split; [auto |].
    intros [H | (_ & l1 & l2 & Heq & _)]; [exact H |].
    destruct l1; discriminate Heq.
  - cbn [fold_left fst snd].
    destruct (has_key_dec m0 ka) as [Hk | Hk].
    + rewrite (map_insert_present ka va m0 Hm0 Hk).
      destruct (IH m0 Hm0) as [Hord Hin]. split; [exact Hord |].
      intros en. rewrite Hin, first_with_key_cons. cbn [fst].
      split.
      * intros [H | (Hno & Hf)]; [left; exact H |].
        right. split; [exact Hno |]. right. split; [| exact Hf].
        intros E. apply Hno. destruct Hk as (e0 & H0 & He0).
        exists e0. split; [exact H0 |]. rewrite He0. exact E.
      * intros [H | (Hno & [-> | (_ & Hf)])]; [left; exact H | |].
        -- exfalso. apply Hno. exact Hk.
        -- right. split; assumption.
    + destruct (IH (map_insert ka va m0) (map_insert_ordered ka va m0 Hm0))
        as [Hord Hin].
      split; [exact Hord |].
      destruct (map_insert_absent ka va m0 Hk) as [Hin1 _].
      intros en. rewrite Hin, Hin1, first_with_key_cons,
                 (has_key_insert (fst en) ka va m0 Hk).
      cbn [fst]. split.
      * intros [[-> | H] | (Hno & Hf)].
        -- right. split; [exact Hk | left; reflexivity].
        -- left. exact H.
        -- right. split; [tauto |]. right. split; [tauto | exact Hf].
      * intros [H | (Hno & [-> | (Hne & Hf)])].
        -- left. right. exact H.
        -- left. left. reflexivity.
        -- right. split; [tauto | exact Hf].
Qed.

Lemma first_occurrence (ins : list (Real * string)) (en : Real * string) :
  In en ins -> exists en', first_with_key ins en' /\ fst en' == fst en.
Proof.
  induction ins as [| a rest IH]; intros Hin; [destruct Hin |].
  destruct (Qeq_dec (fst a) (fst en)) as [E | E].
  - exists a. split; [apply first_with_key_cons; left; reflexivity | exact E].
  - destruct Hin as [-> | Hin]; [exfalso; apply E; reflexivity |].
    destruct (IH Hin) as (en' & Hf & He).
    exists en'. split; [| exact He].
    apply first_with_key_cons. right. split; [| exact Hf].
    rewrite He. exact E.
Qed.

(** *** The error of the linear interpolant on bounded data *)

(** Inside the support, [y = (1<<r)*x] lies in the cell [[k, k+1)] with
    [k = floor(y)]. *)
Lemma cell_fraction (y : Real) :
  0 <= y - inject_Z (Qfloor y) /\ y - inject_Z (Qfloor y) < 1.
Proof.
  pose proof (Qfloor_le y) as H0. pose proof (Qlt_floor y) as H1.
  rewrite inject_Z_plus in H1. change (inject_Z 1) with 1 in H1.
  split; lra.
Qed.








(* ================================================================== *)
(** * Part IV: further properties of the code *)

(* ------------------------------------------------------------------ *)
(** ** The interpolants written in the program *)

Lemma shl1_positive (r : Z) : (0 <= r)%Z -> 0 < of_int (shl1 r).
Proof.
  intros Hr. unfold of_int. rewrite shl1_pow2.
  apply inject_Z_pos, pow2_pos, Hr.
Qed.

(** The two branches of the Taylor lambdas: the node [n] they expand
    about, the offset [eps] they use, and the values they read. *)
Lemma taylor_cases
      (p r : Z) (phi phi_prime phi_dbl_prime phi_triple_prime : list Real)
      (x : Real) :
  (0 <= r)%Z ->
  length phi = grid_points p r ->
  length phi_prime = grid_points p r ->
  length phi_dbl_prime = grid_points p r ->
  length phi_triple_prime = grid_points p r ->
  0 < x -> x < of_int (2 * p - 1) ->
  exists n eps a0 a1 a2 a3,
    ((n = Qfloor (of_int (shl1 r) * x) /\
      eps = (of_int (shl1 r) * x - inject_Z n) / of_int (shl1 r) /\
      of_int (shl1 r) * x - inject_Z n < inject_Z n + 1 - of_int (shl1 r) * x)
     \/
     (n = (Qfloor (of_int (shl1 r) * x) + 1)%Z /\
      eps = (of_int (shl1 r) * x - inject_Z (n - 1) - 1) / of_int (shl1 r) /\
      inject_Z (n - 1) + 1 - of_int (shl1 r) * x
      <= of_int (shl1 r) * x - inject_Z (n - 1))) /\
    (0 <= n)%Z /\
    nth_error phi (Z.to_nat n) = Some a0 /\
    nth_error phi_prime (Z.to_nat n) = Some a1 /\
    nth_error phi_dbl_prime (Z.to_nat n) = Some a2 /\
    nth_error phi_triple_prime (Z.to_nat (Qfloor (of_int (shl1 r) * x)))
    = Some a3 /\
    fotaylor p r phi phi_prime x = Some (a0 + eps * a1) /\
    sotaylor p r phi phi_prime phi_dbl_prime x
    = Some (a0 + eps * a1 + eps * eps * a2 / 2) /\
    totaylor p r phi phi_prime phi_dbl_prime phi_triple_prime x
    = Some (a0 + eps * a1 + eps * eps * a2 / 2 + eps * eps * eps * a3 / 6).
Proof.
  intros Hr L0 L1 L2 L3 H0 H1.
  assert (Hout : outside p x = false) by (apply outside_false; split; assumption).
  destruct (cell_lookup p r Hr phi x L0 Hout) as (b0 & c0 & Hb0 & Hc0).
  destruct (cell_lookup p r Hr phi_prime x L1 Hout) as (b1 & c1 & Hb1 & Hc1).
  destruct (cell_lookup p r Hr phi_dbl_prime x L2 Hout) as (b2 & c2 & Hb2 & Hc2).
  destruct (cell_lookup p r Hr phi_triple_prime x L3 Hout) as (b3 & c3 & Hb3 & _).
  unfold fotaylor, sotaylor, totaylor. fold (outside p x). rewrite Hout. cbv zeta.
  set (y := of_int (shl1 r) * x) in *.
  set (k := Qfloor y) in *.
  rewrite Hb0, Hc0, Hb1, Hc1, Hb2, Hc2, Hb3.
  apply at_index_nth in Hb0, Hc0, Hb1, Hc1, Hb2, Hc2, Hb3.
  destruct (Qlt_bool (y - inject_Z k) (inject_Z k + 1 - y)) eqn:E.
  - apply Qlt_bool_iff in E.
    exists k, ((y - inject_Z k) / of_int (shl1 r)), b0, b1, b2, b3.
    split; [left; repeat split; exact E |].
    repeat split; tauto.
  - assert (E' : inject_Z k + 1 - y <= y - inject_Z k).
    { destruct (Qlt_le_dec (y - inject_Z k) (inject_Z k + 1 - y)) as [H | H];
        [| exact H].
      apply Qlt_bool_iff in H. congruence. }
    exists (k + 1)%Z, ((y - inject_Z k - 1) / of_int (shl1 r)), c0, c1, c2, b3.
    replace (k + 1 - 1)%Z with k by lia.
    split; [right; repeat split; exact E' |].
    repeat split; tauto.
Qed.

(** X1.  For grids of [(2p-1)*2^r + 1] points the first-, second- and
    third-order Taylor lambdas are defined at every [x]: none of their
    accesses [phi[kk]], [phi[kk+1]], ... leaves its vector. *)
Theorem taylor_accesses_in_bounds
        (p r : Z) (phi phi_prime phi_dbl_prime phi_triple_prime : list Real)
        (x : Real) :
  (0 <= r)%Z ->
  length phi = grid_points p r ->
  length phi_prime = grid_points p r ->
  length phi_dbl_prime = grid_points p r ->
  length phi_triple_prime = grid_points p r ->
  exists v1 v2 v3,
    fotaylor p r phi phi_prime x = Some v1 /\
    sotaylor p r phi phi_prime phi_dbl_prime x = Some v2 /\
    totaylor p r phi phi_prime phi_dbl_prime phi_triple_prime x = Some v3.
Proof.
  intros Hr L0 L1 L2 L3.
  destruct (outside p x) eqn:Hout.
  - exists 0, 0, 0. unfold fotaylor, sotaylor, totaylor.
    fold (outside p x). rewrite Hout. repeat split.
  - apply outside_false in Hout. destruct Hout as [H0 H1].
    destruct (taylor_cases p r phi phi_prime phi_dbl_prime phi_triple_prime x
                           Hr L0 L1 L2 L3 H0 H1)
      as (n & eps & a0 & a1 & a2 & a3 & _ & _ & _ & _ & _ & _ & F1 & F2 & F3).
    rewrite F1, F2, F3. do 3 eexists. repeat split.
Qed.

Lemma taylor_accesses_in_bounds_witness :
  exists v1 v2 v3,
    fotaylor 2 2 (sample_grid 2 0 2) (sample_grid 2 1 2) (7 # 5) = Some v1 /\
    sotaylor 2 2 (sample_grid 2 0 2) (sample_grid 2 1 2) (sample_grid 2 2 2)
             (7 # 5) = Some v2 /\
    totaylor 2 2 (sample_grid 2 0 2) (sample_grid 2 1 2) (sample_grid 2 2 2)
             (sample_grid 2 3 2) (7 # 5) = Some v3.
Proof.
  apply (taylor_accesses_in_bounds 2 2 (sample_grid 2 0 2) (sample_grid 2 1 2)
                                   (sample_grid 2 2 2) (sample_grid 2 3 2)).
  - lia.
  - reflexivity.
  - reflexivity.
  - reflexivity.
  - reflexivity.
Defined.

(** The offset used by a Taylor lambda is the distance from [x] to the node
    it expands about, and that node is a nearest one. *)
Lemma taylor_offset (r : Z) (x eps : Real) (n : Z) :
  (0 <= r)%Z ->
  (n = Qfloor (of_int (shl1 r) * x) /\
   eps = (of_int (shl1 r) * x - inject_Z n) / of_int (shl1 r) /\
   of_int (shl1 r) * x - inject_Z n < inject_Z n + 1 - of_int (shl1 r) * x)
  \/
  (n = (Qfloor (of_int (shl1 r) * x) + 1)%Z /\
   eps = (of_int (shl1 r) * x - inject_Z (n - 1) - 1) / of_int (shl1 r) /\
   inject_Z (n - 1) + 1 - of_int (shl1 r) * x
   <= of_int (shl1 r) * x - inject_Z (n - 1)) ->
  eps == x - inject_Z n / of_int (shl1 r) /\
  Qabs (x - inject_Z n / of_int (shl1 r)) <= (1 # 2) / of_int (shl1 r).
Proof.
  intros Hr Hcase.
  pose proof (shl1_positive r Hr) as Hc.
  set (c := of_int (shl1 r)) in *.
  assert (Hic : 0 < / c) by (apply Qinv_lt_0_compat; exact Hc).
  destruct (cell_fraction (c * x)) as [Hf0 Hf1].
  assert (Hd : eps == (c * x - inject_Z n) / c /\
               - (1 # 2) <= c * x - inject_Z n <= 1 # 2).
  { destruct Hcase as [(-> & -> & Hlt) | (Hn & -> & Hle)].
    - split; [reflexivity |]. split; lra.
    - replace (n - 1)%Z with (Qfloor (c * x)) in * by lia.
      assert (Hinj : inject_Z n == inject_Z (Qfloor (c * x)) + 1).
      { rewrite Hn, inject_Z_plus. reflexivity. }
      split; [rewrite Hinj; unfold Qdiv; ring |].
      rewrite Hinj. split; lra. }
  destruct Hd as [He [Hlo Hhi]].
  assert (Hx : (c * x - inject_Z n) / c == x - inject_Z n / c) by (field; lra).
  split; [rewrite He; exact Hx |].
  rewrite <- Hx. apply Qabs_Qle_condition.
  unfold Qdiv. split; nra.
Qed.

(** X2.  Inside the support and for grids of the expected size, each Taylor
    lambda returns the Taylor polynomial of its order in [e = x - n/2^r]
    about a grid node [n] with [|e| <= 2^-(r+1)], a nearest node; the cubic
    term of the third-order one takes the third derivative at the left end
    [floor((1<<r)*x)] of the cell, whichever node is expanded about. *)
Theorem taylor_expands_about_nearest_node
        (p r : Z) (phi phi_prime phi_dbl_prime phi_triple_prime : list Real)
        (x : Real) :
  (0 <= r)%Z ->
  length phi = grid_points p r ->
  length phi_prime = grid_points p r ->
  length phi_dbl_prime = grid_points p r ->
  length phi_triple_prime = grid_points p r ->
  0 < x -> x < of_int (2 * p - 1) ->
  exists n a0 a1 a2 a3 v1 v2 v3,
    (0 <= n <= (2 * p - 1) * 2 ^ r)%Z /\
    nth_error phi (Z.to_nat n) = Some a0 /\
    nth_error phi_prime (Z.to_nat n) = Some a1 /\
    nth_error phi_dbl_prime (Z.to_nat n) = Some a2 /\
    nth_error phi_triple_prime (Z.to_nat (Qfloor (of_int (shl1 r) * x)))
    = Some a3 /\
    fotaylor p r phi phi_prime x = Some v1 /\
    sotaylor p r phi phi_prime phi_dbl_prime x = Some v2 /\
    totaylor p r phi phi_prime phi_dbl_prime phi_triple_prime x = Some v3 /\
    Qabs (x - inject_Z n / of_int (shl1 r)) <= (1 # 2) / of_int (shl1 r) /\
    v1 == a0 + (x - inject_Z n / of_int (shl1 r)) * a1 /\
    v2 == a0 + (x - inject_Z n / of_int (shl1 r)) * a1
          + (x - inject_Z n / of_int (shl1 r))
            * (x - inject_Z n / of_int (shl1 r)) * a2 / 2 /\
    v3 == a0 + (x - inject_Z n / of_int (shl1 r)) * a1
          + (x - inject_Z n / of_int (shl1 r))
            * (x - inject_Z n / of_int (shl1 r)) * a2 / 2
          + (x - inject_Z n / of_int (shl1 r))
            * (x - inject_Z n / of_int (shl1 r))
            * (x - inject_Z n / of_int (shl1 r)) * a3 / 6.
Proof.
  intros Hr L0 L1 L2 L3 H0 H1.
  destruct (taylor_cases p r phi phi_prime phi_dbl_prime phi_triple_prime x
                         Hr L0 L1 L2 L3 H0 H1)
    as (n & eps & a0 & a1 & a2 & a3 & Hcase & Hn0 & N0 & N1 & N2 & N3
        & F1 & F2 & F3).
  destruct (taylor_offset r x eps n Hr Hcase) as [He Hb].
  destruct (cell_bounds p r x Hr H0 H1) as [_ Hk1].
  exists n, a0, a1, a2, a3. do 3 eexists.
  split; [split; [exact Hn0 | destruct Hcase as [(-> & _) | (-> & _)]; lia] |].
  do 4 (split; [eassumption |]).
  split; [exact F1 |]. split; [exact F2 |]. split; [exact F3 |].
  split; [exact Hb |].
  rewrite He. repeat split; reflexivity.
Qed.

Lemma taylor_expands_about_nearest_node_witness :
  exists n a0 a1 a2 a3 v1 v2 v3,
    (0 <= n <= (2 * 2 - 1) * 2 ^ 2)%Z /\
    nth_error (sample_grid 2 0 2) (Z.to_nat n) = Some a0 /\
    nth_error (sample_grid 2 1 2) (Z.to_nat n) = Some a1 /\
    nth_error (sample_grid 2 2 2) (Z.to_nat n) = Some a2 /\
    nth_error (sample_grid 2 3 2) (Z.to_nat (Qfloor (of_int (shl1 2) * (7 # 5))))
    = Some a3 /\
    fotaylor 2 2 (sample_grid 2 0 2) (sample_grid 2 1 2) (7 # 5) = Some v1 /\
    sotaylor 2 2 (sample_grid 2 0 2) (sample_grid 2 1 2) (sample_grid 2 2 2)
             (7 # 5) = Some v2 /\
    totaylor 2 2 (sample_grid 2 0 2) (sample_grid 2 1 2) (sample_grid 2 2 2)
             (sample_grid 2 3 2) (7 # 5) = Some v3 /\
    Qabs ((7 # 5) - inject_Z n / of_int (shl1 2)) <= (1 # 2) / of_int (shl1 2) /\
    v1 == a0 + ((7 # 5) - inject_Z n / of_int (shl1 2)) * a1 /\
    v2 == a0 + ((7 # 5) - inject_Z n / of_int (shl1 2)) * a1
          + ((7 # 5) - inject_Z n / of_int (shl1 2))
            * ((7 # 5) - inject_Z n / of_int (shl1 2)) * a2 / 2 /\
    v3 == a0 + ((7 # 5) - inject_Z n / of_int (shl1 2)) * a1
          + ((7 # 5) - inject_Z n / of_int (shl1 2))
            * ((7 # 5) - inject_Z n / of_int (shl1 2)) * a2 / 2
          + ((7 # 5) - inject_Z n / of_int (shl1 2))
            * ((7 # 5) - inject_Z n / of_int (shl1 2))
            * ((7 # 5) - inject_Z n / of_int (shl1 2)) * a3 / 6.
Proof.
  apply (taylor_expands_about_nearest_node
           2 2 (sample_grid 2 0 2) (sample_grid 2 1 2) (sample_grid 2 2 2)
           (sample_grid 2 3 2) (7 # 5)).
  - lia.
  - reflexivity.
  - reflexivity.
  - reflexivity.
  - reflexivity.
  - reflexivity.
  - reflexivity.
Defined.

Lemma tabulate_length (p r : Z) (f : Real -> Real) :
  length (tabulate p r f) = grid_points p r.
Proof. unfold tabulate. rewrite length_map, length_seq. reflexivity. Qed.



(** X3.  At a node of the candidate grid inside the support, the three
    Taylor lambdas return the grid value [phi[k]]: the derivative terms
    vanish with the offset. *)
Theorem taylor_reproduces_nodes
        (p r : Z) (phi phi_prime phi_dbl_prime phi_triple_prime : list Real)
        (x : Real) (k : Z) :
  (0 <= r)%Z ->
  length phi = grid_points p r ->
  length phi_prime = grid_points p r ->
  length phi_dbl_prime = grid_points p r ->
  length phi_triple_prime = grid_points p r ->
  0 < x -> x < of_int (2 * p - 1) ->
  of_int (shl1 r) * x == inject_Z k ->
  exists a v1 v2 v3,
    nth_error phi (Z.to_nat k) = Some a /\
    fotaylor p r phi phi_prime x = Some v1 /\
    sotaylor p r phi phi_prime phi_dbl_prime x = Some v2 /\
    totaylor p r phi phi_prime phi_dbl_prime phi_triple_prime x = Some v3 /\
    v1 == a /\ v2 == a /\ v3 == a.
Proof.
  intros Hr L0 L1 L2 L3 H0 H1 Hk.
  destruct (taylor_cases p r phi phi_prime phi_dbl_prime phi_triple_prime x
                         Hr L0 L1 L2 L3 H0 H1)
    as (n & eps & a0 & a1 & a2 & a3 & Hcase & Hn0 & N0 & N1 & N2 & N3
        & F1 & F2 & F3).
  assert (Hfl : Qfloor (of_int (shl1 r) * x) = k)
    by (rewrite (Qfloor_comp _ _ Hk); apply Qfloor_Z).
  pose proof (shl1_positive r Hr) as Hc.
  assert (Hn : n = k /\ eps == 0).
  { destruct Hcase as [(-> & -> & _) | (-> & _ & Hle)].
    - split; [exact Hfl |]. rewrite Hfl, Hk. field. lra.
    - exfalso. replace (Qfloor (of_int (shl1 r) * x) + 1 - 1)%Z with k in Hle
        by lia.
      rewrite Hk in Hle. lra. }
  destruct Hn as [-> He].
  exists a0. do 3 eexists.
  split; [exact N0 |]. split; [exact F1 |]. split; [exact F2 |].
  split; [exact F3 |].
  rewrite He. repeat split; field.
Qed.

Lemma taylor_reproduces_nodes_witness :
  exists a v1 v2 v3,
    nth_error (sample_grid 2 0 2) (Z.to_nat 5) = Some a /\
    fotaylor 2 2 (sample_grid 2 0 2) (sample_grid 2 1 2) (5 # 4) = Some v1 /\
    sotaylor 2 2 (sample_grid 2 0 2) (sample_grid 2 1 2) (sample_grid 2 2 2)
             (5 # 4) = Some v2 /\
    totaylor 2 2 (sample_grid 2 0 2) (sample_grid 2 1 2) (sample_grid 2 2 2)
             (sample_grid 2 3 2) (5 # 4) = Some v3 /\
    v1 == a /\ v2 == a /\ v3 == a.
Proof.
  apply (taylor_reproduces_nodes
           2 2 (sample_grid 2 0 2) (sample_grid 2 1 2) (sample_grid 2 2 2)
           (sample_grid 2 3 2) (5 # 4) 5).
  - lia.
  - reflexivity.
  - reflexivity.
  - reflexivity.
  - reflexivity.
  - reflexivity.
  - reflexivity.
  - reflexivity.
Defined.







(** X7.  Whatever the size of the grid, inside the support the linear
    interpolator leaves its vector exactly when the grid has no element of
    index [kk+1]: the unchecked access [phi[kk+1]] needs
    [phi.size() > floor((1<<r)*x) + 1]. *)
Theorem linear_out_of_bounds (p r : Z) (phi : list Real) (x : Real) :
  (0 <= r)%Z ->
  0 < x -> x < of_int (2 * p - 1) ->
  linear p r phi x = None <->
  (Z.of_nat (length phi) <= Qfloor (of_int (shl1 r) * x) + 1)%Z.
Proof.
  intros Hr H0 H1.
  assert (Hout : outside p x = false) by (apply outside_false; split; assumption).
  destruct (cell_bounds p r x Hr H0 H1) as [Hk0 _].
  unfold linear. fold (outside p x). rewrite Hout. cbv zeta.
  set (k := Qfloor (of_int (shl1 r) * x)) in *.
  unfold at_index.
  replace (k <? 0)%Z with false by lia.
  replace (k + 1 <? 0)%Z with false by lia.
  destruct (nth_error phi (Z.to_nat k)) as [a |] eqn:Ea;
    destruct (nth_error phi (Z.to_nat (k + 1))) as [b |] eqn:Eb.
  - assert (Hlt : (Z.to_nat (k + 1) < length phi)%nat)
      by (apply nth_error_Some; congruence).
    split; [discriminate | lia].
  - apply nth_error_None in Eb. split; [lia | reflexivity].
  - apply nth_error_None in Ea. split; [lia | reflexivity].
  - apply nth_error_None in Eb. split; [lia | reflexivity].
Qed.

Lemma linear_out_of_bounds_witness :
  linear 2 2 [0; 1; 4] (5 # 8) = None <->
  (Z.of_nat (length [0; 1; 4]) <= Qfloor (of_int (shl1 2) * (5 # 8)) + 1)%Z.
Proof.
  apply (linear_out_of_bounds 2 2 [0; 1; 4] (5 # 8)).
  - lia.
  - reflexivity.
  - reflexivity.
Defined.

(* ------------------------------------------------------------------ *)
(** ** The map of errors *)

(** X8.  [m.insert] as the program relies on it: the map stays ordered by
    key; inserting an error that is already a key leaves the map as it was
    (the label first inserted is kept); inserting a new error adds exactly
    that pair. *)
Theorem insert_keeps_first_label (k : Real) (v : string) (m : map_t) :
  ordered m ->
  ordered (map_insert k v m) /\
  (has_key m k -> map_insert k v m = m) /\
  (~ has_key m k ->
   (forall en, In en (map_insert k v m) <-> en = (k, v) \/ In en m) /\
   length (map_insert k v m) = S (length m)).
Proof.
  intros Hm. split; [apply map_insert_ordered; exact Hm |].
  split; [apply map_insert_present; exact Hm | apply map_insert_absent].
Qed.

Lemma insert_keeps_first_label_witness :
  ordered (map_insert (6 # 4) "pchip" [(1, "makima"); (3 # 2, "linear interpolation")])
  /\
  (has_key [(1, "makima"); (3 # 2, "linear interpolation")] (6 # 4) ->
   map_insert (6 # 4) "pchip" [(1, "makima"); (3 # 2, "linear interpolation")]
   = [(1, "makima"); (3 # 2, "linear interpolation")]) /\
  (~ has_key [(1, "makima"); (3 # 2, "linear interpolation")] (6 # 4) ->
   (forall en,
       In en (map_insert (6 # 4) "pchip"
                         [(1, "makima"); (3 # 2, "linear interpolation")])
       <-> en = (6 # 4, "pchip")
           \/ In en [(1, "makima"); (3 # 2, "linear interpolation")]) /\
   length (map_insert (6 # 4) "pchip"
                      [(1, "makima"); (3 # 2, "linear interpolation")])
   = S (length [(1, "makima"); (3 # 2, "linear interpolation")])).
Proof.
  apply (insert_keeps_first_label
           (6 # 4) "pchip" [(1, "makima"); (3 # 2, "linear interpolation")]).
  repeat constructor.
Defined.

Lemma fill_length (ins : list (Real * string)) :
  forall m0,
    (length (fold_left (fun m en => map_insert (fst en) (snd en) m) ins m0)
     <= length m0 + length ins)%nat.
Proof.
  induction ins as [| [ka va] rest IH]; intros m0; cbn [fold_left length].
  - lia.
  - specialize (IH (map_insert ka va m0)). cbn [fst snd].
    assert (H : (length (map_insert ka va m0) <= S (length m0))%nat).
    { clear IH. induction m0 as [| [k' v'] m0 IHm]; cbn [map_insert length].
      - lia.
      - destruct (ka ?= k'); cbn [length]; lia. }
    lia.
Qed.

Lemma first_with_key_in (ins : list (Real * string)) (en : Real * string) :
  first_with_key ins en -> In en ins.
Proof.
  intros (l1 & l2 & -> & _). apply in_or_app. right. left. reflexivity.
Qed.

(** X9.  The map [m] that the loop body hands to the final scan: its keys
    are strictly increasing; its entries are, for each distinct error
    value, the first scheme (in the order of the source) that recorded it;
    every recorded error is a key of [m]; a scheme whose error equals one
    recorded earlier is absent from [m]. *)
Theorem map_holds_first_scheme_per_error
        (L : Library) (p r : Z) (phi_dense : list Real) (dx_dense : Real) :
  (2 <= p)%Z -> (0 <= r)%Z -> well_sized L p r ->
  (0 < length phi_dense)%nat ->
  exists m,
    snd (compare_schemes L p phi_dense dx_dense r) = Some m /\
    ordered m /\
    (forall en,
        In en m <->
        first_with_key
          (inserts_of (fst (compare_schemes L p phi_dense dx_dense r))) en) /\
    (forall en,
        In en (inserts_of (fst (compare_schemes L p phi_dense dx_dense r))) ->
        has_key m (fst en)) /\
    (length m
     <= length (inserts_of (fst (compare_schemes L p phi_dense dx_dense r))))%nat.
Proof.
  intros Hp Hr Hs Hn.
  destruct (compare_schemes_run L p r phi_dense dx_dense Hp Hr Hs Hn)
    as (tr & Hrun & Hins & _).
  rewrite Hrun. cbn [fst snd]. rewrite Hins.
  set (ins := recorded L p r phi_dense dx_dense).
  exists (map_of ins). split; [reflexivity |].
  destruct (fill_spec ins [] ltac:(constructor)) as [Hord Hin].
  fold (map_of ins) in Hord, Hin.
  assert (Hiff : forall en, In en (map_of ins) <-> first_with_key ins en).
  { intros en. rewrite Hin. split.
    - intros [[] | [_ H]]. exact H.
    - intros H. right. split; [| exact H]. intros (e0 & [] & _). }
  split; [exact Hord |]. split; [exact Hiff |]. split.
  - intros en Hen. destruct (first_occurrence ins en Hen) as (en' & Hf & He).
    exists en'. split; [apply Hiff; exact Hf | exact He].
  - apply (fill_length ins []).
Qed.

Lemma map_holds_first_scheme_per_error_witness :
  exists m,
    snd (compare_schemes sample_library 2 sample_dense sample_dx 2) = Some m /\
    ordered m /\
    (forall en,
        In en m <->
        first_with_key
          (inserts_of (fst (compare_schemes sample_library 2 sample_dense
                                            sample_dx 2))) en) /\
    (forall en,
        In en (inserts_of (fst (compare_schemes sample_library 2 sample_dense
                                                sample_dx 2))) ->
        has_key m (fst en)) /\
    (length m
     <= length (inserts_of (fst (compare_schemes sample_library 2 sample_dense
                                                 sample_dx 2))))%nat.
Proof.
  apply (map_holds_first_scheme_per_error sample_library 2 2 sample_dense
                                          sample_dx).
  - lia.
  - lia.
  - apply sample_library_sized.
  - vm_compute. lia.
Defined.

(* ------------------------------------------------------------------ *)
(** ** What the console shows *)

Lemma best_loop_cout (m : map_t) :
  forall best best_sup,
  exists l b,
    best_loop m best best_sup = (l, Some b) /\
    cout_of l = flat_map console_line m.
Proof.
  induction m as [| [e1 e2] rest IH]; intros best best_sup.
  - exists [], (best, best_sup). split; reflexivity.
  - cbn [best_loop].
    destruct (Qlt_bool e1 best_sup);
      [destruct (IH e2 e1) as (l & b & Hrun & Hc)
      | destruct (IH best best_sup) as (l & b & Hrun & Hc)];
      (eexists; exists b; split;
       [ unfold cout; exec_with idtac; exact Hrun
       | autorewrite with log; rewrite Hc; reflexivity ]).
Qed.

(** X10.  With grids of the expected size and some recorded error below
    [1000000000], the scheme named on the line ["The best method ..."] has
    the smallest error among all the schemes compared, those left out of
    [m] for a repeated error included; when several schemes share the
    smallest error it is the first of them in the order of the source. *)
Theorem best_is_first_smallest
        (L : Library) (p r : Z) (phi_dense : list Real) (dx_dense : Real) :
  (2 <= p)%Z -> (0 <= r)%Z -> well_sized L p r ->
  (0 < length phi_dense)%nat ->
  (exists en,
      In en (inserts_of (fst (compare_schemes L p phi_dense dx_dense r))) /\
      fst en < of_int 1000000000) ->
  exists m best e before,
    snd (compare_schemes L p phi_dense dx_dense r) = Some m /\
    cout_of (fst (report_best p m)) =
      before ++ [TStr (tab ++ "The best method for p = "); TInt p;
                 TStr " is the "; TStr best; TStr nl] /\
    first_with_key
      (inserts_of (fst (compare_schemes L p phi_dense dx_dense r))) (e, best) /\
    forall en,
      In en (inserts_of (fst (compare_schemes L p phi_dense dx_dense r))) ->
      e <= fst en.
Proof.
  intros Hp Hr Hs Hn Hsome.
  destruct (compare_schemes_run L p r phi_dense dx_dense Hp Hr Hs Hn)
    as (tr & Hrun & Hins & _).
  rewrite Hrun in *. cbn [fst snd] in *. rewrite Hins in *.
  set (ins := recorded L p r phi_dense dx_dense) in *.
  destruct (fill_spec ins [] ltac:(constructor)) as [Hord Hin].
  fold (map_of ins) in Hord, Hin.
  assert (Hiff : forall en, In en (map_of ins) <-> first_with_key ins en).
  { intros en. rewrite Hin. split.
    - intros [[] | [_ H]]. exact H.
    - intros H. right. split; [| exact H]. intros (e0 & [] & _). }
  assert (Hkey : forall en, In en ins ->
                            exists en', In en' (map_of ins) /\ fst en' == fst en).
  { intros en Hen. destruct (first_occurrence ins en Hen) as (en' & Hf & He).
    exists en'. split; [apply Hiff; exact Hf | exact He]. }
  destruct (best_loop_result (map_of ins) Hord)
    as (l & [best best_sup] & Hl & Hmin & _).
  cbn [fst snd] in Hmin.
  destruct Hmin as [Hbest Hle].
  { destruct Hsome as (en & Hen & Hlt).
    destruct (Hkey en Hen) as (en' & Hen' & He).
    exists en'. split; [exact Hen' | rewrite He; exact Hlt]. }
  exists (map_of ins), best, best_sup, (cout_of l).
  split; [reflexivity |]. split; [| split].
  - assert (Hrep : report_best p (map_of ins) =
                   (l ++ [Cout (TStr (tab ++ "The best method for p = "));
                          Cout (TInt p); Cout (TStr " is the ");
                          Cout (TStr best); Cout (TStr nl)], Some tt)).
    { unfold report_best, cout. eapply bind_run; [exact Hl |]. reflexivity. }
    rewrite Hrep. cbn [fst]. rewrite cout_of_app. reflexivity.
  - apply Hiff. exact Hbest.
  - intros en Hen. destruct (Hkey en Hen) as (en' & Hen' & He).
    rewrite <- He. apply Hle. exact Hen'.
Qed.

Lemma best_is_first_smallest_witness :
  exists m best e before,
    snd (compare_schemes sample_library 2 sample_dense sample_dx 2) = Some m /\
    cout_of (fst (report_best 2 m)) =
      before ++ [TStr (tab ++ "The best method for p = "); TInt 2;
                 TStr " is the "; TStr best; TStr nl] /\
    first_with_key
      (inserts_of (fst (compare_schemes sample_library 2 sample_dense
                                        sample_dx 2))) (e, best) /\
    forall en,
      In en (inserts_of (fst (compare_schemes sample_library 2 sample_dense
                                              sample_dx 2))) ->
      e <= fst en.
Proof.
  apply (best_is_first_smallest sample_library 2 2 sample_dense sample_dx).
  - lia.
  - lia.
  - apply sample_library_sized.
  - vm_compute. lia.
  - exists (hd (0, "")
               (inserts_of (fst (compare_schemes sample_library 2 sample_dense
                                                 sample_dx 2)))).
    split.
    + vm_compute. left. reflexivity.
    + vm_compute. reflexivity.
Defined.

(** X11.  The final scan writes to the console one line
    ["\t<error> is error of <label>\n"] for each entry of [m], in strictly
    increasing order of error, and then the line naming the best method. *)
Theorem console_lists_errors_in_order
        (L : Library) (p r : Z) (phi_dense : list Real) (dx_dense : Real)
        (m : map_t) :
  snd (compare_schemes L p phi_dense dx_dense r) = Some m ->
  StronglySorted (fun a b : Real * string => fst a < fst b) m /\
  exists best,
    cout_of (fst (report_best p m)) =
      flat_map console_line m ++
      [TStr (tab ++ "The best method for p = "); TInt p;
       TStr " is the "; TStr best; TStr nl].
Proof.
  intros Hrun. split; [exact (compare_schemes_ordered L p r _ _ m Hrun) |].
  destruct (best_loop_cout m "none" (of_int 1000000000))
    as (l & [best best_sup] & Hl & Hc).
  exists best.
  assert (Hrep : report_best p m =
                 (l ++ [Cout (TStr (tab ++ "The best method for p = "));
                        Cout (TInt p); Cout (TStr " is the ");
                        Cout (TStr best); Cout (TStr nl)], Some tt)).
  { unfold report_best, cout. eapply bind_run; [exact Hl |]. reflexivity. }
  rewrite Hrep. cbn [fst]. rewrite cout_of_app, Hc. reflexivity.
Qed.

Lemma console_lists_errors_in_order_witness :
  StronglySorted (fun a b : Real * string => fst a < fst b) sample_map /\
  exists best,
    cout_of (fst (report_best 2 sample_map)) =
      flat_map console_line sample_map ++
      [TStr (tab ++ "The best method for p = "); TInt 2;
       TStr " is the "; TStr best; TStr nl].
Proof.
  apply (console_lists_errors_in_order sample_library 2 2 sample_dense sample_dx
                                       sample_map).
  vm_compute. reflexivity.
Defined.

(* ------------------------------------------------------------------ *)
(** ** Sign and vanishing of the recorded errors *)

Lemma max_error_zero (pd : list Real) (dx : Real) (f : Real -> option Real)
      (n : nat) (e : Real) :
  max_error pd dx f n e ->
  0 <= e /\
  (e == 0 <->
   forall i, (i < n)%nat ->
             exists ref v, nth_error pd i = Some ref /\
                           f (of_size_t i * dx) = Some v /\ ref == v).
Proof.
  intros [Hub (i0 & d0 & Hi0 & (ref0 & v0 & Hr0 & Hv0 & Hd0) & He0)].
  assert (Hpos : 0 <= e) by (rewrite He0, Hd0; apply Qabs_nonneg).
  split; [exact Hpos |]. split.
  - intros Hz i Hi.
    destruct (Hub i Hi) as (d & (ref & v & Href & Hv & Hd) & Hle).
    exists ref, v. split; [exact Href |]. split; [exact Hv |].
    assert (Habs : Qabs (ref - v) <= 0) by (rewrite <- Hd, <- Hz; exact Hle).
    apply Qabs_Qle_condition in Habs. lra.
  - intros Hall. destruct (Hall i0 Hi0) as (ref & v & Href & Hv & Heq).
    rewrite Hr0 in Href. injection Href as <-.
    rewrite Hv0 in Hv. injection Hv as <-.
    rewrite He0, Hd0. rewrite Heq.
    setoid_replace (v0 - v0) with 0 by ring. reflexivity.
Qed.

(** X12.  Every error written to the CSV and inserted in [m] is
    non-negative, and it is zero exactly when the interpolant agrees with
    the reference grid at every point it is compared at. *)
Theorem recorded_errors_nonnegative
        (L : Library) (p r : Z) (phi_dense : list Real) (dx_dense : Real) :
  (2 <= p)%Z -> (0 <= r)%Z -> well_sized L p r ->
  (2 <= length phi_dense)%nat -> (Z.of_nat (length phi_dense) - 1 < 2 ^ 64)%Z ->
  Forall2
    (fun nf en =>
       snd en = fst nf /\
       0 <= fst en /\
       (fst en == 0 <->
        forall i,
          (i < if String.eqb (fst nf) "matched_holder"
               then length phi_dense - 1 else length phi_dense)%nat ->
          exists ref v,
            nth_error phi_dense i = Some ref /\
            snd nf (of_size_t i * dx_dense) = Some v /\
            ref == v))
    (interpolants L p r)
    (inserts_of (fst (compare_schemes L p phi_dense dx_dense r))).
Proof.
  intros Hp Hr Hs Hn Hbound.
  destruct (compare_schemes_run L p r phi_dense dx_dense Hp Hr Hs ltac:(lia))
    as (tr & Hrun & Hins & _).
  rewrite Hrun. cbn [fst]. rewrite Hins. unfold recorded.
  apply Forall2_map_right. intros [name f] Hin. cbn [fst snd].
  split; [reflexivity |].
  assert (Hpv : points_visited (length phi_dense) name =
                if String.eqb name "matched_holder"
                then (length phi_dense - 1)%nat else length phi_dense).
  { unfold points_visited. rewrite size_t_pred_small by lia. reflexivity. }
  rewrite <- Hpv.
  apply max_error_zero, sup_over_max.
  - intros x. apply (interpolants_defined L p r Hr Hs name f x Hin).
  - rewrite Hpv. destruct (String.eqb name "matched_holder"); lia.
  - rewrite Hpv. destruct (String.eqb name "matched_holder"); lia.
Qed.

Lemma recorded_errors_nonnegative_witness :
  Forall2
    (fun nf en =>
       snd en = fst nf /\
       0 <= fst en /\
       (fst en == 0 <->
        forall i,
          (i < if String.eqb (fst nf) "matched_holder"
               then length sample_dense - 1 else length sample_dense)%nat ->
          exists ref v,
            nth_error sample_dense i = Some ref /\
            snd nf (of_size_t i * sample_dx) = Some v /\
            ref == v))
    (interpolants sample_library 2 2)
    (inserts_of (fst (compare_schemes sample_library 2 sample_dense sample_dx 2))).
Proof.
  apply (recorded_errors_nonnegative sample_library 2 2 sample_dense sample_dx).
  - lia.
  - lia.
  - apply sample_library_sized.
  - vm_compute. lia.
  - vm_compute. reflexivity.
Defined.

(* ------------------------------------------------------------------ *)
(** ** What the library routines are given *)

Lemma of_size_t_lt (i j : nat) : (i < j)%nat -> of_size_t i < of_size_t j.
Proof. intros H. unfold of_size_t. rewrite <- Zlt_Qlt. lia. Qed.

Lemma of_size_t_le (i j : nat) : (i <= j)%nat -> of_size_t i <= of_size_t j.
Proof. intros H. unfold of_size_t. rewrite <- Zle_Qle. lia. Qed.

Lemma abscissas_sorted_from (dx : Real) (n s : nat) :
  0 < dx ->
  StronglySorted Qlt (map (fun i => of_size_t i * dx) (seq s n)).
Proof.
  intros Hdx. revert s. induction n as [| n IH]; intros s; cbn [seq map].
  - constructor.
  - constructor; [apply IH |].
    apply Forall_forall. intros y Hy. apply in_map_iff in Hy.
    destruct Hy as (j & <- & Hj). apply in_seq in Hj.
    apply Qmult_lt_compat_r; [exact Hdx | apply of_size_t_lt; lia].
Qed.

Lemma spacing_positive (p : Z) (n : nat) :
  (1 <= p)%Z -> (2 <= n)%nat -> (Z.of_nat n - 1 < 2 ^ 64)%Z -> 0 < spacing p n.
Proof.
  intros Hp Hn Hb. unfold spacing. rewrite size_t_pred_small by lia.
  apply Qlt_shift_div_l.
  - change 0 with (of_size_t 0). apply of_size_t_lt. lia.
  - rewrite Qmult_0_l. apply inject_Z_pos. lia.
Qed.

(** X13.  The vector [x] handed to [pchip] and [makima] with the grid
    values: it has as many elements as [phi], at least four, and it is
    strictly increasing. *)
Theorem abscissas_fit_pchip_and_makima (L : Library) (p r : Z) :
  (2 <= p)%Z -> (0 <= r)%Z -> ((2 * p - 1) * 2 ^ r < 2 ^ 64)%Z ->
  length (dyadic_grid L p 0 r) = grid_points p r ->
  exists x,
    x = abscissas (length (dyadic_grid L p 0 r))
                  (spacing p (length (dyadic_grid L p 0 r))) /\
    In ("pchip", total (pchip L x (dyadic_grid L p 0 r))) (interpolants L p r) /\
    In ("makima", total (makima L x (dyadic_grid L p 0 r))) (interpolants L p r) /\
    length x = length (dyadic_grid L p 0 r) /\
    (4 <= length x)%nat /\
    StronglySorted Qlt x.
Proof.
  intros Hp Hr Hb Hlen. eexists. split; [reflexivity |].
  pose proof (grid_points_Z p r ltac:(lia) Hr) as HZ.
  pose proof (pow2_pos r Hr) as Hpow.
  assert (Hlenx : length (abscissas (length (dyadic_grid L p 0 r))
                                    (spacing p (length (dyadic_grid L p 0 r))))
                  = length (dyadic_grid L p 0 r))
    by (unfold abscissas; rewrite length_map, length_seq; reflexivity).
  split; [| split].
  - unfold interpolants. cbv zeta. apply in_or_app. left.
    cbn [In]. do 6 right. left. reflexivity.
  - unfold interpolants. cbv zeta. apply in_or_app. left.
    cbn [In]. do 7 right. left. reflexivity.
  - split; [exact Hlenx |]. split.
    + rewrite Hlenx, Hlen. nia.
    + unfold abscissas. apply abscissas_sorted_from.
      rewrite Hlen. apply spacing_positive; [lia | nia | lia].
Qed.

Lemma abscissas_fit_pchip_and_makima_witness :
  exists x,
    x = abscissas (length (dyadic_grid sample_library 2 0 2))
                  (spacing 2 (length (dyadic_grid sample_library 2 0 2))) /\
    In ("pchip", total (pchip sample_library x (dyadic_grid sample_library 2 0 2)))
       (interpolants sample_library 2 2) /\
    In ("makima", total (makima sample_library x (dyadic_grid sample_library 2 0 2)))
       (interpolants sample_library 2 2) /\
    length x = length (dyadic_grid sample_library 2 0 2) /\
    (4 <= length x)%nat /\
    StronglySorted Qlt x.
Proof.
  apply (abscissas_fit_pchip_and_makima sample_library 2 2).
  - lia.
  - lia.
  - vm_compute. reflexivity.
  - reflexivity.
Defined.

(** X14.  With [dx_dense = (2p-1)/(phi_dense.size()-1)] as the program
    computes it, every interpolant is evaluated only at abscissas of the
    support [[0, 2p-1]], and the matched-Holder one never at the right end
    [2p-1]. *)
Theorem evaluations_within_support
        (L : Library) (p r : Z) (phi_dense : list Real) :
  (2 <= p)%Z -> (0 <= r)%Z -> well_sized L p r ->
  (2 <= length phi_dense)%nat -> (Z.of_nat (length phi_dense) - 1 < 2 ^ 64)%Z ->
  Forall
    (fun nf =>
       Forall (fun x => 0 <= x /\ x <= of_int (2 * p - 1) /\
                        (fst nf = "matched_holder" -> x < of_int (2 * p - 1)))
              (evals_of (fst nf)
                        (fst (compare_schemes L p phi_dense
                                              (spacing p (length phi_dense)) r))))
    (interpolants L p r).
Proof.
  intros Hp Hr Hs Hn Hbound.
  apply Forall_forall. intros [name f] Hin. cbn [fst].
  destruct (compare_schemes_run L p r phi_dense (spacing p (length phi_dense))
                                Hp Hr Hs ltac:(lia))
    as (tr & Hrun & _ & _ & _ & _ & Hev).
  rewrite Hrun. cbn [fst]. rewrite (Hev name f Hin).
  apply Forall_forall. intros x Hx. apply in_map_iff in Hx.
  destruct Hx as (i & <- & Hi). apply in_seq in Hi.
  assert (Hpv : points_visited (length phi_dense) name =
                if String.eqb name "matched_holder"
                then (length phi_dense - 1)%nat else length phi_dense).
  { unfold points_visited. rewrite size_t_pred_small by lia. reflexivity. }
  rewrite Hpv in Hi.
  pose proof (spacing_positive p (length phi_dense) ltac:(lia) Hn Hbound) as Hdx.
  assert (Hw : 0 < of_int (2 * p - 1)) by (apply inject_Z_pos; lia).
  assert (Hlast : of_size_t (length phi_dense - 1) * spacing p (length phi_dense)
                  == of_int (2 * p - 1)).
  { unfold spacing. rewrite size_t_pred_small by lia. field.
    assert (H : of_size_t 0 < of_size_t (length phi_dense - 1))
      by (apply of_size_t_lt; lia).
    change (of_size_t 0) with 0 in H. lra. }
  assert (H0 : 0 <= of_size_t i)
    by (change 0 with (of_size_t 0); apply of_size_t_le; lia).
  split; [apply Qmult_le_0_compat; [exact H0 | lra] |].
  split.
  - rewrite <- Hlast. apply Qmult_le_compat_r; [| lra].
    apply of_size_t_le. destruct (String.eqb name "matched_holder"); lia.
  - intros ->. cbn in Hi. rewrite <- Hlast.
    apply Qmult_lt_compat_r; [exact Hdx |]. apply of_size_t_lt. lia.
Qed.

Lemma evaluations_within_support_witness :
  Forall
    (fun nf =>
       Forall (fun x => 0 <= x /\ x <= of_int (2 * 2 - 1) /\
                        (fst nf = "matched_holder" -> x < of_int (2 * 2 - 1)))
              (evals_of (fst nf)
                        (fst (compare_schemes sample_library 2 sample_dense
                                              (spacing 2 (length sample_dense))
                                              2))))
    (interpolants sample_library 2 2).
Proof.
  apply (evaluations_within_support sample_library 2 2 sample_dense).
  - lia.
  - lia.
  - apply sample_library_sized.
  - vm_compute. lia.
  - vm_compute. reflexivity.
Defined.

(* ------------------------------------------------------------------ *)
(** ** The grids the program asks for *)

Lemma grids_of_app (l l' : list event) :
  grids_of (l ++ l') = grids_of l ++ grids_of l'.
Proof. apply flat_map_app. Qed.

Lemma grids_of_flat_map {A} (g : A -> list event) (xs : list A) :
  grids_of (flat_map g xs) = flat_map (fun x => grids_of (g x)) xs.
Proof.
  induction xs as [| x xs IH]; [reflexivity |].
  cbn [flat_map]. rewrite grids_of_app, IH. reflexivity.
Qed.

Lemma grids_of_block pd dx name f n sep :
  grids_of (block_events pd dx name f n sep) = [].
Proof.
  unfold block_events. rewrite grids_of_app.
  induction (seq 0 n) as [| i l IH]; [reflexivity | exact IH].
Qed.

Create Rewrite HintDb grids.

#[local] Hint Rewrite grids_of_app grids_of_block : grids.

Lemma compare_schemes_grids
      (L : Library) (p r : Z) (phi_dense : list Real) (dx_dense : Real) :
  (2 <= p)%Z -> (0 <= r)%Z -> well_sized L p r ->
  (0 < length phi_dense)%nat ->
  grids_of (fst (compare_schemes L p phi_dense dx_dense r)) = grids_at p r.
Proof.
  intros p_ge_2 r_nonneg sized dense_nonempty.
  assert (H1 : (0 < length (dyadic_grid L p 1 r))%nat)
    by (rewrite sized; apply grid_points_pos; lia).
  assert (Hle : (length phi_dense <= length phi_dense)%nat) by lia.
  assert (Hle' : (size_t_pred (length phi_dense) <= length phi_dense)%nat)
    by (pose proof (size_t_pred_le _ dense_nonempty); lia).
  pose proof (linear_total p r r_nonneg _ (sized 0%nat)) as T0.
  pose proof (fotaylor_total p r r_nonneg _ _ (sized 0%nat) (sized 1%nat)) as T1.
  pose proof (sotaylor_total p r r_nonneg _ _ _ (sized 0%nat) (sized 1%nat)
                             (sized 2%nat)) as T2.
  pose proof (totaylor_total p r r_nonneg _ _ _ _ (sized 0%nat) (sized 1%nat)
                             (sized 2%nat) (sized 3%nat)) as T3.
  assert (Hrun : exists tr v,
             compare_schemes L p phi_dense dx_dense r = (tr, v) /\
             grids_of tr = grids_at p r).
  { assert (Hcases : exists b2 b3, (2 <? p)%Z = b2 /\ (3 <? p)%Z = b3 /\
                                   (p =? 2)%Z = negb b2 /\ (b2 = false -> b3 = false)).
    { exists (2 <? p)%Z, (3 <? p)%Z. repeat split; [| intros H; lia].
      destruct (2 <? p)%Z eqn:E; cbn [negb]; lia. }
    destruct Hcases as (b2 & b3 & E2 & E3 & E1 & Himp).
    unfold grids_at, compare_schemes. rewrite E1, E2, E3.
    destruct b2, b3; cbn [negb]; try (discriminate (Himp eq_refl));
      (do 2 eexists; split;
       [ exec_with ltac:(first [assumption | intros ?; apply total_defined])
       | autorewrite with grids; reflexivity ]). }
  destruct Hrun as (tr & v & Hrun & Hg). rewrite Hrun. exact Hg.
Qed.

Lemma report_best_grids (p : Z) (m : map_t) : grids_of (fst (report_best p m)) = [].
Proof.
  assert (Hloop : forall m' best s,
             exists l b, best_loop m' best s = (l, Some b) /\ grids_of l = []).
  { induction m' as [| [e1 e2] rest IH]; intros best s.
    - exists [], (best, s). split; reflexivity.
    - cbn [best_loop].
      destruct (Qlt_bool e1 s);
        [destruct (IH e2 e1) as (l & b & Hrun & Hg)
        | destruct (IH best s) as (l & b & Hrun & Hg)];
        (eexists; exists b; split;
         [ unfold cout; exec_with idtac; exact Hrun
         | autorewrite with grids; rewrite Hg; reflexivity ]). }
  destruct (Hloop m "none" (of_int 1000000000)) as (l & b & Hl & Hg).
  assert (Hrep : exists l', report_best p m = (l ++ l', Some tt) /\ grids_of l' = []).
  { eexists. split.
    - unfold report_best, cout. eapply bind_run; [exact Hl |]. exec_with idtac.
    - reflexivity. }
  destruct Hrep as (l' & Hrep & Hg'). rewrite Hrep. cbn [fst].
  rewrite grids_of_app, Hg, Hg'. reflexivity.
Qed.

(** X15.  The calls to [dyadic_grid] made by [find_best_interpolator<p>]:
    first the reference grid (order 0, level [rmax = 17]), then at each
    [r = 2..15] the orders 0 and 1, order 2 when [p > 2], and orders 2
    (a second time) and 3 when [p > 3].  So no derivative of order [>= p]
    or [> 3] is ever requested, and no level other than 17 and 2..15. *)
Theorem grids_requested (L : Library) (p : Z) :
  (2 <= p)%Z ->
  (forall r, (0 <= r)%Z -> well_sized L p r) ->
  grids_of (fst (find_best_interpolator L p)) =
    (p, 0%nat, rmax)
    :: flat_map (grids_at p) [2; 3; 4; 5; 6; 7; 8; 9; 10; 11; 12; 13; 14; 15]%Z
  /\
  Forall (fun g => fst (fst g) = p /\
                   (Z.of_nat (snd (fst g)) < p)%Z /\ (snd (fst g) <= 3)%nat /\
                   (snd g = 17 \/ 2 <= snd g <= 15)%Z)
         (grids_of (fst (find_best_interpolator L p))).
Proof.
  intros Hp Hs.
  assert (Hd : (2 <= length (dyadic_grid L p 0 rmax))%nat)
    by (apply dense_points; assumption).
  assert (Hbody : forall r, In r (int_range 2 (rmax - 1)) ->
            snd (m <- compare_schemes L p (dyadic_grid L p 0 rmax)
                        (spacing p (length (dyadic_grid L p 0 rmax))) r ;;
                 report_best p m) = Some tt /\
            grids_of (fst (m <- compare_schemes L p (dyadic_grid L p 0 rmax)
                                 (spacing p (length (dyadic_grid L p 0 rmax))) r ;;
                           report_best p m)) = grids_at p r).
  { intros r Hr. split; [apply (loop_body_run L p Hp Hs r Hr) |].
    apply in_int_range in Hr.
    pose proof (compare_schemes_grids
                  L p r (dyadic_grid L p 0 rmax)
                  (spacing p (length (dyadic_grid L p 0 rmax)))
                  Hp ltac:(lia) (Hs r ltac:(lia)) ltac:(lia)) as Hg.
    destruct (compare_schemes_run
                L p r (dyadic_grid L p 0 rmax)
                (spacing p (length (dyadic_grid L p 0 rmax)))
                Hp ltac:(lia) (Hs r ltac:(lia)) ltac:(lia))
      as (tr & Hrun & _).
    rewrite Hrun in Hg. cbn [fst] in Hg.
    pose proof (report_best_grids
                  p (map_of (recorded L p r (dyadic_grid L p 0 rmax)
                                      (spacing p (length (dyadic_grid L p 0 rmax))))))
      as Hrg.
    destruct (report_best p _) as [l' v'] eqn:Hrep. cbn [fst] in Hrg.
    rewrite (bind_run _ (fun m => report_best p m) _ _ _ _ Hrun Hrep).
    cbn [fst]. rewrite grids_of_app, Hg, Hrg. apply app_nil_r. }
  assert (Hlist : grids_of (fst (find_best_interpolator L p)) =
                  (p, 0%nat, rmax) :: flat_map (grids_at p) (int_range 2 (rmax - 1))).
  { assert (Hrun : exists tr,
               find_best_interpolator L p = (tr, Some tt) /\
               grids_of tr = (p, 0%nat, rmax)
                             :: flat_map (grids_at p) (int_range 2 (rmax - 1))).
    { eexists. split.
      - unfold find_best_interpolator, fs, cout.
        eapply bind_run; [reflexivity |].
        eapply bind_run; [reflexivity |].
        eapply bind_run; [apply grid_run |]. cbv beta zeta.
        eapply bind_run; [reflexivity |].
        eapply bind_run; [reflexivity |].
        eapply bind_run; [exact (header_run p) |].
        apply for_each_run. intros r Hr. apply (Hbody r Hr).
      - autorewrite with grids. rewrite grids_of_flat_map.
        rewrite (flat_map_ext_in _ (grids_at p) (int_range 2 (rmax - 1)))
          by (intros r Hr; apply (Hbody r Hr)).
        assert (Hh : grids_of (map Fs (tl (header_tokens p))) = []).
        { unfold header_tokens. cbn [tl].
          destruct (p =? 2)%Z; [reflexivity |].
          destruct (3 <? p)%Z; reflexivity. }
        rewrite Hh. reflexivity. }
    destruct Hrun as (tr & Hrun & Hg). rewrite Hrun. exact Hg. }
  split; [exact Hlist |].
  rewrite Hlist. constructor; [cbn; unfold rmax; lia |].
  apply Forall_forall. intros g Hg. apply in_flat_map in Hg.
  destruct Hg as (r & Hr & Hg).
  assert (Hrange : (2 <= r <= 15)%Z) by (apply in_int_range in Hr; unfold rmax in Hr; lia).
  unfold grids_at in Hg.
  repeat (apply in_app_or in Hg; destruct Hg as [Hg | Hg]).
  - cbn [In] in Hg. destruct Hg as [<- | [<- | []]]; cbn; lia.
  - destruct (2 <? p)%Z eqn:E; [| destruct Hg].
    cbn [In] in Hg. destruct Hg as [<- | []]. cbn. lia.
  - destruct (3 <? p)%Z eqn:E; [| destruct Hg].
    cbn [In] in Hg. destruct Hg as [<- | [<- | []]]; cbn; lia.
Qed.

Lemma grids_requested_witness :
  grids_of (fst (find_best_interpolator sample_library 3)) =
    (3%Z, 0%nat, rmax)
    :: flat_map (grids_at 3) [2; 3; 4; 5; 6; 7; 8; 9; 10; 11; 12; 13; 14; 15]%Z
  /\
  Forall (fun g => fst (fst g) = 3%Z /\
                   (Z.of_nat (snd (fst g)) < 3)%Z /\ (snd (fst g) <= 3)%nat /\
                   (snd g = 17 \/ 2 <= snd g <= 15)%Z)
         (grids_of (fst (find_best_interpolator sample_library 3))).
Proof.
  apply (grids_requested sample_library 3).
  - lia.
  - intros r _. apply sample_library_sized.
Defined.

(* ------------------------------------------------------------------ *)
(** ** The files *)

Lemma to_string_inj (z z' : Z) : to_string z = to_string z' -> z = z'.
Proof.
  unfold to_string. intros H.
  assert (Hnn : forall n, Z.to_int n <> Decimal.Pos Decimal.Nil /\
                          Z.to_int n <> Decimal.Neg Decimal.Nil).
  { intros [| q | q]; cbn; split; try discriminate;
      intros E; injection E as E; exact (Unsigned.to_uint_nonnil q E). }
  apply (f_equal NilZero.int_of_string) in H.
  rewrite !NilZero.isi in H by apply Hnn.
  injection H as H. apply DecimalZ.to_int_inj. exact H.
Qed.

Lemma append_length (s t : string) :
  String.length (s ++ t) = (String.length s + String.length t)%nat.
Proof. induction s as [| c s IH]; cbn; [reflexivity | rewrite IH; reflexivity]. Qed.

Lemma append_cancel_r (t : string) :
  forall s s' : string, (s ++ t = s' ++ t)%string -> s = s'.
Proof.
  induction s as [| c s IH]; intros [| c' s'] H; cbn in H.
  - reflexivity.
  - apply (f_equal String.length) in H. cbn in H. rewrite append_length in H. lia.
  - apply (f_equal String.length) in H. cbn in H. rewrite append_length in H. lia.
  - injection H as -> H. f_equal. apply IH. exact H.
Qed.

Lemma filename_inj (p q : Z) : filename p = filename q -> p = q.
Proof.
  unfold filename. intros H. cbn [String.append] in H.
  repeat (injection H as H).
  apply append_cancel_r in H. apply to_string_inj. exact H.
Qed.

(** X16.  Different values of [p] name different CSV files, so the runs of
    [main] never write to the same file: the fourteen files it opens are
    pairwise distinct. *)
Theorem files_are_distinct (L : Library) :
  (forall p r, (2 <= p <= 15)%Z -> (0 <= r)%Z -> well_sized L p r) ->
  (forall p q, filename p = filename q -> p = q) /\
  length (opens_of (fst (main L))) = 14%nat /\
  NoDup (opens_of (fst (main L))).
Proof.
  intros Hs. split; [exact filename_inj |].
  destruct (main_run L Hs) as [_ Hop]. rewrite Hop.
  split; [reflexivity |].
  apply Injective_map_NoDup; [intros p q; apply filename_inj |].
  repeat (constructor; [cbn [In]; lia |]). constructor.
Qed.

Lemma files_are_distinct_witness :
  (forall p q, filename p = filename q -> p = q) /\
  length (opens_of (fst (main sample_library))) = 14%nat /\
  NoDup (opens_of (fst (main sample_library))).
Proof.
  apply (files_are_distinct sample_library).
  intros p r _ _. apply sample_library_sized.
Defined.
